(** * Antigravity Manager: command dispatch and debug-console log store

    A shallow embedding of [src/utils/request.ts] (the [request] gateway
    with its [COMMAND_MAPPING] table) and of the debug-console store
    ([useDebugConsole]: [enable], [disable], [loadLogs], [clearLogs],
    [addLog], [startListening], [stopListening], [checkEnabled]).

    Conventions.
    - A JavaScript string is modelled by the sequence of bytes of its
      UTF-8 encoding ([string]); this is the representation on which
      [encodeURIComponent] and [URLSearchParams] percent-encode.  Strings
      with lone surrogates (on which [encodeURIComponent] raises) have no
      UTF-8 encoding and are outside the model.
    - An object used as a mapping is the list of its own enumerable
      entries in enumeration order.
    - Every [await] on the outside world (native call, HTTP exchange,
      channel registration) takes its outcome as an input, so that the
      embedded functions are total and executable. *)

From Stdlib Require Import ZArith List Bool Ascii String Lia DecimalString.
Import ListNotations.
Open Scope string_scope.
Set Warnings "-register-all".

(** ** JavaScript values and built-ins *)

Module JS.

(** Values that cross the gateway: arguments, parsed bodies, thrown
    values.  [VNum] carries integer-valued numbers; [VError] is an
    [Error] object with its [name] and [message]. *)
Inductive value : Type :=
| VUndefined
| VNull
| VBool (b : bool)
| VNum (n : Z)
| VStr (s : string)
| VArr (l : list value)
| VObj (l : list (string * value))
| VError (name message : string).

(** An object seen as a mapping: own enumerable entries, in order. *)
Definition object : Type := list (string * value).

(** Outcome of a call: it returns (a promise resolves) with a result, or
    it throws (the promise rejects) with a value. *)
Inductive outcome (A : Type) : Type :=
| resolved (a : A)
| rejected (e : value).
Arguments resolved {A} a.
Arguments rejected {A} e.

(** [Object.keys(o)] and [Object.entries(o)]. *)
Definition Object_keys (o : object) : list string := map fst o.
Definition Object_entries (o : object) : object := o.

(** [o[key]]: the entry's value, [undefined] when there is none. *)
Fixpoint get (o : object) (key : string) : value :=
  match o with
  | [] => VUndefined
  | (k, v) :: o' => if (k =? key)%string then v else get o' key
  end.

(** Truthiness, as tested by [if (x)], [x ? a : b] and [x || y]. *)
Definition truthy (v : value) : bool :=
  match v with
  | VUndefined | VNull => false
  | VBool b => b
  | VNum n => negb (n =? 0)%Z
  | VStr s => negb (s =? "")%string
  | VArr _ | VObj _ | VError _ _ => true
  end.

(** [a.join(sep)] on strings. *)
Fixpoint join (sep : string) (l : list string) : string :=
  match l with
  | [] => ""
  | [s] => s
  | s :: l' => s ++ sep ++ join sep l'
  end.

(** [String(n)] for an integer-valued number of magnitude below
    [10^21], which JavaScript prints in plain decimal. *)
Definition Number_toString (n : Z) : string :=
  NilZero.string_of_int (Z.to_int n).

(** [String(v)]. *)
Fixpoint String_ (v : value) : string :=
  match v with
  | VUndefined => "undefined"
  | VNull => "null"
  | VBool true => "true"
  | VBool false => "false"
  | VNum n => Number_toString n
  | VStr s => s
  | VArr l =>
      join "," (map (fun x => match x with
                              | VUndefined | VNull => ""
                              | _ => String_ x
                              end) l)
  | VObj _ => "[object Object]"
  | VError name message =>
      if (name =? "")%string then message
      else if (message =? "")%string then name
      else name ++ ": " ++ message
  end.

(** [s.includes(p)]: does [p] occur in [s]. *)
Fixpoint includes (s p : string) : bool :=
  if prefix p s then true
  else match s with
       | EmptyString => false
       | String _ s' => includes s' p
       end.

(** Drop the first [n] characters. *)
Fixpoint drop (n : nat) (s : string) : string :=
  match n, s with
  | O, _ => s
  | S _, EmptyString => EmptyString
  | S n', String _ s' => drop n' s'
  end.

(** [s.replace(p, r)] for a string pattern [p]: the first occurrence of
    [p] is replaced by [r], and [s] is returned as it is when there is
    none.  [r] is inserted literally: the replacement patterns of
    [String.prototype.replace] all start with a dollar sign, which
    [encodeURIComponent], the only producer of [r] here, never emits
    (lemma [encodeURIComponent_no_dollar]). *)
Fixpoint replace (s p r : string) : string :=
  if prefix p s then r ++ drop (length p) s
  else match s with
       | EmptyString => EmptyString
       | String c s' => String c (replace s' p r)
       end.

(** Percent-encoding of one byte, upper-case hexadecimal. *)
Definition hex_digit (n : N) : ascii :=
  if (n <? 10)%N then ascii_of_N (48 + n) else ascii_of_N (55 + n).

Definition percent_encode (c : ascii) : string :=
  let n := N_of_ascii c in
  String "%" (String (hex_digit (n / 16)) (String (hex_digit (n mod 16)) "")).

Definition is_alnum (c : ascii) : bool :=
  let n := N_of_ascii c in
  ((48 <=? n) && (n <=? 57) || (65 <=? n) && (n <=? 90)
   || (97 <=? n) && (n <=? 122))%N.

Definition mem_ascii (c : ascii) (s : string) : bool :=
  existsb (Ascii.eqb c) (list_ascii_of_string s).

(** [encodeURIComponent]: every byte is percent-encoded except the
    letters, the digits and [- _ . ! ~ * ' ( )]. *)
Definition uri_unreserved (c : ascii) : bool :=
  is_alnum c || mem_ascii c "-_.!~*'()".

Fixpoint encodeURIComponent (s : string) : string :=
  match s with
  | EmptyString => EmptyString
  | String c s' =>
      (if uri_unreserved c then String c "" else percent_encode c)
      ++ encodeURIComponent s'
  end.

(** The [application/x-www-form-urlencoded] byte serializer used by
    [URLSearchParams.prototype.toString]: a space becomes [+], the
    letters, the digits and [* - . _] are kept, every other byte is
    percent-encoded. *)
Definition form_unreserved (c : ascii) : bool :=
  is_alnum c || mem_ascii c "*-._".

Fixpoint form_urlencode (s : string) : string :=
  match s with
  | EmptyString => EmptyString
  | String c s' =>
      (if Ascii.eqb c " " then "+"
       else if form_unreserved c then String c ""
       else percent_encode c)
      ++ form_urlencode s'
  end.

(** [new URLSearchParams()], [append] and [toString]: the list of
    name/value pairs in insertion order, serialized as [name=value]
    joined by [&]. *)
Definition URLSearchParams : Type := list (string * string).

Definition URLSearchParams_append (p : URLSearchParams) (k v : string)
  : URLSearchParams := (p ++ [(k, v)])%list.

Definition URLSearchParams_toString (p : URLSearchParams) : string :=
  join "&" (map (fun kv => form_urlencode (fst kv) ++ "=" ++ form_urlencode (snd kv)) p).

End JS.

(** ** The request gateway ([src/utils/request.ts]) *)

Module Request.
Import JS.

Inductive http_method : Type := GET | POST | DELETE.

(** An entry of the command table: path template and verb. *)
Record descriptor : Type := { url : string; method : http_method }.

Definition COMMAND_MAPPING : list (string * descriptor) :=
  [
    ("list_accounts", {| url := "/api/accounts"; method := GET |});
    ("get_current_account", {| url := "/api/accounts/current"; method := GET |});
    ("switch_account", {| url := "/api/accounts/switch"; method := POST |});
    ("add_account", {| url := "/api/accounts"; method := POST |});
    ("delete_account", {| url := "/api/accounts/:accountId"; method := DELETE |});
    ("delete_accounts", {| url := "/api/accounts/bulk-delete"; method := POST |});
    ("fetch_account_quota", {| url := "/api/accounts/:accountId/quota"; method := GET |});
    ("refresh_account_quota", {| url := "/api/accounts/:accountId/quota"; method := GET |});
    ("refresh_all_quotas", {| url := "/api/accounts/refresh"; method := POST |});
    ("reorder_accounts", {| url := "/api/accounts/reorder"; method := POST |});
    ("toggle_proxy_status", {| url := "/api/accounts/:accountId/toggle-proxy"; method := POST |});
    ("warm_up_accounts", {| url := "/api/accounts/warmup"; method := POST |});
    ("warm_up_all_accounts", {| url := "/api/accounts/warmup"; method := POST |});
    ("warm_up_account", {| url := "/api/accounts/:accountId/warmup"; method := POST |});
    ("export_accounts", {| url := "/api/accounts/export"; method := POST |});
    ("bind_device_profile", {| url := "/api/accounts/:accountId/bind-device"; method := POST |});
    ("get_device_profiles", {| url := "/api/accounts/:accountId/device-profiles"; method := GET |});
    ("list_device_versions", {| url := "/api/accounts/:accountId/device-versions"; method := GET |});
    ("preview_generate_profile", {| url := "/api/accounts/device-preview"; method := POST |});
    ("bind_device_profile_with_profile", {| url := "/api/accounts/:accountId/bind-device-profile"; method := POST |});
    ("restore_original_device", {| url := "/api/accounts/restore-original"; method := POST |});
    ("restore_device_version", {| url := "/api/accounts/:accountId/device-versions/:versionId/restore"; method := POST |});
    ("delete_device_version", {| url := "/api/accounts/:accountId/device-versions/:versionId"; method := DELETE |});
    ("open_device_folder", {| url := "/api/system/open-folder"; method := POST |});
    ("get_proxy_status", {| url := "/api/proxy/status"; method := GET |});
    ("start_proxy_service", {| url := "/api/proxy/start"; method := POST |});
    ("stop_proxy_service", {| url := "/api/proxy/stop"; method := POST |});
    ("update_model_mapping", {| url := "/api/proxy/mapping"; method := POST |});
    ("generate_api_key", {| url := "/api/proxy/api-key/generate"; method := POST |});
    ("clear_proxy_session_bindings", {| url := "/api/proxy/session-bindings/clear"; method := POST |});
    ("clear_proxy_rate_limit", {| url := "/api/proxy/rate-limits/:accountId"; method := DELETE |});
    ("clear_all_proxy_rate_limits", {| url := "/api/proxy/rate-limits"; method := DELETE |});
    ("check_proxy_health", {| url := "/api/proxy/health-check/trigger"; method := POST |});
    ("get_preferred_account", {| url := "/api/proxy/preferred-account"; method := GET |});
    ("set_preferred_account", {| url := "/api/proxy/preferred-account"; method := POST |});
    ("fetch_zai_models", {| url := "/api/zai/models/fetch"; method := POST |});
    ("load_config", {| url := "/api/config"; method := GET |});
    ("save_config", {| url := "/api/config"; method := POST |});
    ("get_proxy_stats", {| url := "/api/proxy/stats"; method := GET |});
    ("set_proxy_monitor_enabled", {| url := "/api/proxy/monitor/toggle"; method := POST |});
    ("get_proxy_logs_filtered", {| url := "/api/logs"; method := GET |});
    ("get_proxy_logs_count_filtered", {| url := "/api/logs/count"; method := GET |});
    ("clear_proxy_logs", {| url := "/api/logs/clear"; method := POST |});
    ("get_proxy_log_detail", {| url := "/api/logs/:logId"; method := GET |});
    ("enable_debug_console", {| url := "/api/proxy/debug/enable"; method := POST |});
    ("disable_debug_console", {| url := "/api/proxy/debug/disable"; method := POST |});
    ("is_debug_console_enabled", {| url := "/api/proxy/debug/enabled"; method := GET |});
    ("get_debug_console_logs", {| url := "/api/proxy/debug/logs"; method := GET |});
    ("clear_debug_console_logs", {| url := "/api/proxy/debug/logs/clear"; method := POST |});
    ("get_cli_sync_status", {| url := "/api/proxy/cli/status"; method := POST |});
    ("execute_cli_sync", {| url := "/api/proxy/cli/sync"; method := POST |});
    ("execute_cli_restore", {| url := "/api/proxy/cli/restore"; method := POST |});
    ("get_cli_config_content", {| url := "/api/proxy/cli/config"; method := POST |});
    ("get_token_stats_hourly", {| url := "/api/stats/token/hourly"; method := GET |});
    ("get_token_stats_daily", {| url := "/api/stats/token/daily"; method := GET |});
    ("get_token_stats_weekly", {| url := "/api/stats/token/weekly"; method := GET |});
    ("get_token_stats_by_account", {| url := "/api/stats/token/by-account"; method := GET |});
    ("get_token_stats_summary", {| url := "/api/stats/token/summary"; method := GET |});
    ("get_token_stats_by_model", {| url := "/api/stats/token/by-model"; method := GET |});
    ("get_token_stats_model_trend_hourly", {| url := "/api/stats/token/model-trend/hourly"; method := GET |});
    ("get_token_stats_model_trend_daily", {| url := "/api/stats/token/model-trend/daily"; method := GET |});
    ("get_token_stats_account_trend_hourly", {| url := "/api/stats/token/account-trend/hourly"; method := GET |});
    ("get_token_stats_account_trend_daily", {| url := "/api/stats/token/account-trend/daily"; method := GET |});
    ("get_data_dir_path", {| url := "/api/system/data-dir"; method := GET |});
    ("save_text_file", {| url := "/api/system/save-file"; method := POST |});
    ("get_update_settings", {| url := "/api/system/updates/settings"; method := GET |});
    ("save_update_settings", {| url := "/api/system/updates/save"; method := POST |});
    ("is_auto_launch_enabled", {| url := "/api/system/autostart/status"; method := GET |});
    ("toggle_auto_launch", {| url := "/api/system/autostart/toggle"; method := POST |});
    ("get_http_api_settings", {| url := "/api/system/http-api/settings"; method := GET |});
    ("save_http_api_settings", {| url := "/api/system/http-api/settings"; method := POST |});
    ("cloudflared_install", {| url := "/api/proxy/cloudflared/install"; method := POST |});
    ("cloudflared_start", {| url := "/api/proxy/cloudflared/start"; method := POST |});
    ("cloudflared_stop", {| url := "/api/proxy/cloudflared/stop"; method := POST |});
    ("cloudflared_get_status", {| url := "/api/proxy/cloudflared/status"; method := GET |});
    ("should_check_updates", {| url := "/api/system/updates/check-status"; method := GET |});
    ("check_for_updates", {| url := "/api/system/updates/check"; method := POST |});
    ("update_last_check_time", {| url := "/api/system/updates/touch"; method := POST |});
    ("prepare_oauth_url", {| url := "/api/auth/url"; method := GET |});
    ("start_oauth_login", {| url := "/api/accounts/oauth/start"; method := POST |});
    ("complete_oauth_login", {| url := "/api/accounts/oauth/complete"; method := POST |});
    ("cancel_oauth_login", {| url := "/api/accounts/oauth/cancel"; method := POST |});
    ("submit_oauth_code", {| url := "/api/accounts/oauth/submit-code"; method := POST |});
    ("import_v1_accounts", {| url := "/api/accounts/import/v1"; method := POST |});
    ("import_from_db", {| url := "/api/accounts/import/db"; method := POST |});
    ("import_custom_db", {| url := "/api/accounts/import/db-custom"; method := POST |});
    ("sync_account_from_db", {| url := "/api/accounts/sync/db"; method := POST |});
    ("open_data_folder", {| url := "/api/system/open-folder"; method := POST |});
    ("get_ip_access_logs", {| url := "/api/security/logs"; method := GET |});
    ("clear_ip_access_logs", {| url := "/api/security/logs/clear"; method := POST |});
    ("get_ip_stats", {| url := "/api/security/stats"; method := GET |});
    ("get_ip_token_stats", {| url := "/api/security/token-stats"; method := GET |});
    ("get_ip_blacklist", {| url := "/api/security/blacklist"; method := GET |});
    ("add_ip_to_blacklist", {| url := "/api/security/blacklist"; method := POST |});
    ("remove_ip_from_blacklist", {| url := "/api/security/blacklist"; method := DELETE |});
    ("clear_ip_blacklist", {| url := "/api/security/blacklist/clear"; method := POST |});
    ("check_ip_in_blacklist", {| url := "/api/security/blacklist/check"; method := GET |});
    ("get_ip_whitelist", {| url := "/api/security/whitelist"; method := GET |});
    ("add_ip_to_whitelist", {| url := "/api/security/whitelist"; method := POST |});
    ("remove_ip_from_whitelist", {| url := "/api/security/whitelist"; method := DELETE |});
    ("clear_ip_whitelist", {| url := "/api/security/whitelist/clear"; method := POST |});
    ("check_ip_in_whitelist", {| url := "/api/security/whitelist/check"; method := GET |});
    ("get_security_config", {| url := "/api/security/config"; method := GET |});
    ("update_security_config", {| url := "/api/security/config"; method := POST |})
  ].

(** The entry of the table under a name, if the table has one. *)
Fixpoint lookup (table : list (string * descriptor)) (cmd : string)
  : option descriptor :=
  match table with
  | [] => None
  | (name, d) :: table' =>
      if (name =? cmd)%string then Some d else lookup table' cmd
  end.

(** The second argument of [fetch]. *)
Record RequestInit : Type := {
  init_method : http_method;
  init_headers : list (string * string);
  init_body : option string
}.

(** What the gateway reads of a [Response]: its status, its body as
    text, and the outcome of parsing that body as JSON ([None] when the
    parser rejects it; this is the outcome of both [response.json()] and
    [JSON.parse(await response.text())]). *)
Record Response : Type := {
  status : Z;
  text : string;
  json : option value
}.

(** [response.ok]. *)
Definition ok (r : Response) : bool :=
  ((200 <=? status r) && (status r <=? 299))%Z.

(** The hosting environment of one call. *)
Record env : Type := {
  isTauri : bool;
  invoke : string -> option object -> outcome value;
  localStorage_getItem : string -> option string;
  JSON_stringify : object -> string;
  fetch : string -> RequestInit -> outcome Response;
  Date_now : Z
}.

(** Effects of a call on the outside, in program order.  The value of
    a [console_error] is [VUndefined] when the line has a label only. *)
Inductive effect : Type :=
| console_error (label : string) (v : value)
| console_warn (label : string) (v : string)
| call_invoke (cmd : string) (args : option object)
| call_fetch (input : string) (options : RequestInit)
| dispatchEvent (type : string).

(** One round of the [forEach] over [Object.keys(args)]. *)
Definition substitute_key (args : object) (url key : string) : string :=
  let placeholder := ":" ++ key in
  if includes url placeholder
  then replace url placeholder (encodeURIComponent (String_ (get args key)))
  else url.

(** Path parameters: [:key] is replaced by [args[key]]. *)
Definition substitute_path (url : string) (args : option object) : string :=
  match args with
  | Some a => fold_left (substitute_key a) (Object_keys a) url
  | None => url
  end.

(** The [forEach] over [Object.entries(args)] filling the parameters. *)
Definition query_params (a : object) : URLSearchParams :=
  fold_left
    (fun params kv =>
       match snd kv with
       | VUndefined | VNull => params
       | value => URLSearchParams_append params (fst kv) (String_ value)
       end)
    (Object_entries a) [].

Definition headers_of (apiKey : option string) : list (string * string) :=
  ("Content-Type", "application/json")
  :: match apiKey with
     | Some k =>
         if (k =? "")%string then []
         else [("Authorization", "Bearer " ++ k); ("x-api-key", k)]
     | None => []
     end.

(** URL and options handed to [fetch]. *)
Definition build (E : env) (mapping : descriptor) (args : option object)
  : string * RequestInit :=
  let url := substitute_path (url mapping) args in
  let apiKey := localStorage_getItem E "abv_admin_api_key" in
  let headers := headers_of apiKey in
  match method mapping, args with
  | (GET | DELETE), Some a =>
      let qs := URLSearchParams_toString (query_params a) in
      (if (qs =? "")%string then url else url ++ "?" ++ qs,
       {| init_method := method mapping; init_headers := headers;
          init_body := None |})
  | POST, Some a =>
      (url,
       {| init_method := method mapping; init_headers := headers;
          init_body := Some (JSON_stringify E a) |})
  | _, None =>
      (url,
       {| init_method := method mapping; init_headers := headers;
          init_body := None |})
  end.

(** The debounce on [window._lastAuthErrorTime] ([None]: not set). *)
Definition unauthorized (now : Z) (last : option Z)
  : option Z * list effect :=
  let lastAuthError := match last with Some t => t | None => 0%Z end in
  if (now - lastAuthError >? 2000)%Z
  then (Some now, [dispatchEvent "abv-unauthorized"])
  else (last, []).

(** [errorData.error]: a property read, which throws on [null]. *)
Definition error_field (errorData : value) : outcome value :=
  match errorData with
  | VNull =>
      rejected (VError "TypeError"
               "Cannot read properties of null (reading 'error')")
  | VUndefined =>
      rejected (VError "TypeError"
               "Cannot read properties of undefined (reading 'error')")
  | VObj l => resolved (get l "error")
  | _ => resolved VUndefined
  end.

(** The body of the [try] once [fetch] has resolved. *)
Definition respond (cmd : string) (response : Response) (now : Z)
  (last : option Z)
  : outcome value * option Z * list effect :=
  if negb (ok response) then
    let '(last', fired) :=
      if (status response =? 401)%Z then unauthorized now last
      else (last, []) in
    let errorData :=
      match json response with Some v => v | None => VObj [] end in
    match error_field errorData with
    | rejected e => (rejected e, last', fired)
    | resolved e =>
        (rejected (if truthy e then e
                else VStr ("HTTP Error " ++ Number_toString (status response))),
         last', fired)
    end
  else if (status response =? 204)%Z then (resolved VNull, last, [])
  else if (text response =? "")%string then (resolved VNull, last, [])
  else match json response with
       | Some v => (resolved v, last, [])
       | None =>
           (resolved (VStr (text response)), last,
            [console_warn ("Failed to parse JSON response for [" ++ cmd ++ "]:")
               (text response)])
       end.

(** The names every object inherits from [Object.prototype].  The
    table is an object literal, so [COMMAND_MAPPING[cmd]] under one of
    them is not [undefined] but the inherited function or object, which
    has neither [url] nor [method]. *)
Definition inherited_names : list string :=
  ["constructor"; "__defineGetter__"; "__defineSetter__"; "hasOwnProperty";
   "__lookupGetter__"; "__lookupSetter__"; "isPrototypeOf";
   "propertyIsEnumerable"; "toString"; "valueOf"; "__proto__";
   "toLocaleString"].

Definition inherited (cmd : string) : bool :=
  existsb (String.eqb cmd) inherited_names.

(** The [try] block: [fetch(url, options)], the response handled, and
    what is thrown inside logged and thrown again. *)
Definition attempt (E : env) (cmd url : string) (options : RequestInit)
  (last : option Z)
  : outcome value * option Z * list effect :=
  let '(result, last', effects) :=
    match fetch E url options with
    | resolved response => respond cmd response (Date_now E) last
    | rejected error => (rejected error, last, [])
    end in
  let sent := call_fetch url options in
  match result with
  | resolved v => (resolved v, last', sent :: effects)
  | rejected error =>
      (rejected error, last',
       sent :: effects
       ++ [console_error ("Web Fetch Error [" ++ cmd ++ "]:") error])%list
  end.

(** [request(cmd, args)] with [window._lastAuthErrorTime = last]: the
    completion, the new value of [window._lastAuthErrorTime], and the
    effects in order.

    [COMMAND_MAPPING[cmd]] is the entry of the table when there is one;
    it is an inherited value under an inherited name, and [undefined]
    under any other name.  An inherited value passes the test
    [if (!mapping)]; its [url] is [undefined], on which [url.includes]
    throws as soon as the arguments have a key, before the [try]; its
    [method] is [undefined], so that no query and no body is made, and
    [fetch(undefined, options)] requests the text [undefined] with the
    default method. *)
Definition request (E : env) (cmd : string) (args : option object)
  (last : option Z)
  : outcome value * option Z * list effect :=
  if isTauri E then
    match invoke E cmd args with
    | resolved v => (resolved v, last, [call_invoke cmd args])
    | rejected error =>
        (rejected error, last,
         [call_invoke cmd args;
          console_error ("Tauri Invoke Error [" ++ cmd ++ "]:") error])
    end
  else
    match lookup COMMAND_MAPPING cmd with
    | Some mapping =>
        let '(url, options) := build E mapping args in
        attempt E cmd url options last
    | None =>
        if inherited cmd then
          match args with
          | Some (_ :: _) =>
              (rejected
                 (VError "TypeError"
                    "Cannot read properties of undefined (reading 'includes')"),
               last, [])
          | _ =>
              attempt E cmd "undefined"
                {| init_method := GET;
                   init_headers :=
                     headers_of (localStorage_getItem E "abv_admin_api_key");
                   init_body := None |}
                last
          end
        else
          (rejected (VError "Error"
                    ("Command [" ++ cmd ++ "] not supported in Web mode.")),
           last,
           [console_error
              ("Command [" ++ cmd
               ++ "] is not yet mapped for Web mode. Failing.")
              VUndefined])
    end.

End Request.

(** ** The debug-console store ([useDebugConsole]) *)

Module DebugConsole.
Import JS.

Inductive LogLevel : Type := ERROR | WARN | INFO | DEBUG | TRACE.

Record LogEntry : Type := {
  id : Z;
  timestamp : Z;
  level : LogLevel;
  target : string;
  message : string;
  fields : list (string * string)
}.

Definition MAX_LOGS : nat := 5000.

(** A registration on the event channel; [unlistenFn] is the function
    that removes the registration it was returned for. *)
Definition handle : Type := nat.

(** The store.  The view-only fields ([isOpen], [filter], [searchTerm],
    [autoScroll]) are read and written by none of the actions below. *)
Record state : Type := {
  isEnabled : bool;
  logs : list LogEntry;
  unlistenFn : option handle
}.

(** The argument of [set]. *)
Inductive patch : Type :=
| set_isEnabled (b : bool)
| set_logs (l : list LogEntry)
| set_unlistenFn (u : option handle).

Definition apply_patch (p : patch) (s : state) : state :=
  match p with
  | set_isEnabled b =>
      {| isEnabled := b; logs := logs s; unlistenFn := unlistenFn s |}
  | set_logs l =>
      {| isEnabled := isEnabled s; logs := l; unlistenFn := unlistenFn s |}
  | set_unlistenFn u =>
      {| isEnabled := isEnabled s; logs := logs s; unlistenFn := u |}
  end.

(** What an action does, in program order. *)
Inductive event : Type :=
| invoked (cmd : string)
| listened (channel : string)
| unlistened (h : handle)
| did_set (p : patch)
| console_error (label : string) (error : value).

(** The store together with the event channel: the registrations that
    are live on [log-event] (each runs the callback
    [(event) => get().addLog(event.payload)]), the next fresh
    registration, and the events so far, oldest first. *)
Record world : Type := {
  store : state;
  listeners : list handle;
  next_handle : handle;
  trace : list event
}.

(** Actions run in a state-and-exception monad over [world]. *)
Definition M (A : Type) : Type := world -> outcome A * world.

Definition ret {A : Type} (a : A) : M A := fun w => (resolved a, w).

Definition bind {A B : Type} (m : M A) (k : A -> M B) : M B :=
  fun w =>
    match m w with
    | (resolved a, w') => k a w'
    | (rejected e, w') => (rejected e, w')
    end.

Definition try_catch {A : Type} (m : M A) (handler : value -> M A) : M A :=
  fun w =>
    match m w with
    | (resolved a, w') => (resolved a, w')
    | (rejected e, w') => handler e w'
    end.

Notation "x <- m ;; k" := (bind m (fun x => k))
  (at level 61, m at next level, right associativity).
Notation "m ;; k" := (bind m (fun _ => k))
  (at level 61, right associativity).

Definition exec {A : Type} (m : M A) (w : world) : world := snd (m w).

Definition emit (e : event) : M unit :=
  fun w =>
    (resolved tt,
     {| store := store w; listeners := listeners w;
        next_handle := next_handle w; trace := (trace w ++ [e])%list |}).

(** [get()] and [set(patch)] of the store. *)
Definition get_state : M state := fun w => (resolved (store w), w).

Definition set (p : patch) : M unit :=
  fun w =>
    (resolved tt,
     {| store := apply_patch p (store w); listeners := listeners w;
        next_handle := next_handle w;
        trace := (trace w ++ [did_set p])%list |}).

(** [await invoke(cmd)], the backend answering with [r]. *)
Definition invoke {A : Type} (cmd : string) (r : outcome A) : M A :=
  fun w => (r, snd (emit (invoked cmd) w)).

(** [await listen(channel, callback)]: when the channel accepts, a fresh
    registration becomes live and its [unlisten] function is returned. *)
Definition listen (channel : string) (r : outcome unit) : M handle :=
  fun w =>
    let w1 := snd (emit (listened channel) w) in
    match r with
    | resolved _ =>
        (resolved (next_handle w1),
         {| store := store w1;
            listeners := (listeners w1 ++ [next_handle w1])%list;
            next_handle := S (next_handle w1); trace := trace w1 |})
    | rejected e => (rejected e, w1)
    end.

(** Calling an [unlisten] function removes its registration. *)
Definition unlisten (h : handle) : M unit :=
  fun w =>
    let w1 := snd (emit (unlistened h) w) in
    (resolved tt,
     {| store := store w1;
        listeners := List.filter (fun h' => negb (h' =? h)%nat) (listeners w1);
        next_handle := next_handle w1; trace := trace w1 |}).

(** [a.slice(-n)] for [n > 0]: the last [n] elements, all of them when
    there are fewer. *)
Definition slice_last {A : Type} (n : nat) (a : list A) : list A :=
  skipn (List.length a - n) a.

Definition loadLogs (r : outcome (list LogEntry)) : M unit :=
  try_catch
    (logs <- invoke "get_debug_console_logs" r ;;
     set (set_logs logs))
    (fun error => emit (console_error "Failed to load logs:" error)).

Definition clearLogs (r : outcome unit) : M unit :=
  try_catch
    (invoke "clear_debug_console_logs" r ;;
     set (set_logs []))
    (fun error => emit (console_error "Failed to clear logs:" error)).

Definition addLog (log : LogEntry) : M unit :=
  state <- get_state ;;
  let newLogs := (logs state ++ [log])%list in
  if (MAX_LOGS <? List.length newLogs)%nat
  then set (set_logs (slice_last MAX_LOGS newLogs))
  else set (set_logs newLogs).

Definition startListening (r : outcome unit) : M unit :=
  state <- get_state ;;
  match unlistenFn state with
  | Some _ => ret tt
  | None =>
      try_catch
        (unlisten <- listen "log-event" r ;;
         set (set_unlistenFn (Some unlisten)))
        (fun error =>
           emit (console_error "Failed to start listening for logs:" error))
  end.

Definition stopListening : M unit :=
  state <- get_state ;;
  match unlistenFn state with
  | Some unlistenFn => unlisten unlistenFn ;; set (set_unlistenFn None)
  | None => ret tt
  end.

Definition enable (r_enable : outcome unit)
  (r_logs : outcome (list LogEntry)) (r_listen : outcome unit) : M unit :=
  try_catch
    (invoke "enable_debug_console" r_enable ;;
     set (set_isEnabled true) ;;
     loadLogs r_logs ;;
     startListening r_listen)
    (fun error =>
       emit (console_error "Failed to enable debug console:" error)).

Definition disable (r_disable : outcome unit) : M unit :=
  try_catch
    (invoke "disable_debug_console" r_disable ;;
     stopListening ;;
     set (set_isEnabled false))
    (fun error =>
       emit (console_error "Failed to disable debug console:" error)).

Definition checkEnabled (r_enabled : outcome bool)
  (r_logs : outcome (list LogEntry)) (r_listen : outcome unit) : M unit :=
  try_catch
    (isEnabled <- invoke "is_debug_console_enabled" r_enabled ;;
     set (set_isEnabled isEnabled) ;;
     if isEnabled
     then loadLogs r_logs ;; startListening r_listen
     else ret tt)
    (fun error =>
       emit (console_error "Failed to check debug console status:" error)).

(** The channel delivers one record: every live registration runs its
    callback, which calls [addLog] on the payload. *)
Definition deliver (log : LogEntry) (w : world) : world :=
  fold_left (fun w' _ => exec (addLog log) w') (listeners w) w.

(** One thing that happens to the store, with the answers of the
    backend and of the channel to the awaits it runs. *)
Inductive action : Type :=
| do_enable (r_enable : outcome unit) (r_logs : outcome (list LogEntry))
    (r_listen : outcome unit)
| do_disable (r_disable : outcome unit)
| do_loadLogs (r_logs : outcome (list LogEntry))
| do_clearLogs (r_clear : outcome unit)
| do_addLog (log : LogEntry)
| do_startListening (r_listen : outcome unit)
| do_stopListening
| do_checkEnabled (r_enabled : outcome bool)
    (r_logs : outcome (list LogEntry)) (r_listen : outcome unit)
| pushed (log : LogEntry).

Definition step (w : world) (a : action) : world :=
  match a with
  | do_enable r1 r2 r3 => exec (enable r1 r2 r3) w
  | do_disable r => exec (disable r) w
  | do_loadLogs r => exec (loadLogs r) w
  | do_clearLogs r => exec (clearLogs r) w
  | do_addLog log => exec (addLog log) w
  | do_startListening r => exec (startListening r) w
  | do_stopListening => exec stopListening w
  | do_checkEnabled r1 r2 r3 => exec (checkEnabled r1 r2 r3) w
  | pushed log => deliver log w
  end.

Definition run (acts : list action) (w : world) : world :=
  fold_left step acts w.

(** The store as created, on a channel without registrations. *)
Definition initial : world :=
  {| store := {| isEnabled := false; logs := []; unlistenFn := None |};
     listeners := []; next_handle := 0; trace := [] |}.

End DebugConsole.
(** ** Reading the claims: paths, queries, runs of calls *)

Module Reading.
Import JS Request.

(** [s.split(sep)] for a separator of one character. *)
Fixpoint split (sep : ascii) (s : string) : list string :=
  match s with
  | EmptyString => [EmptyString]
  | String c s' =>
      if Ascii.eqb c sep then EmptyString :: split sep s'
      else match split sep s' with
           | piece :: rest => String c piece :: rest
           | [] => [String c EmptyString]
           end
  end.

(** A path template as the table writes it: segments separated by
    slashes, a segment that starts with a colon being a placeholder. *)
Definition segments (s : string) : list string := split "/" s.

Definition placeholder_name (seg : string) : option string :=
  match seg with
  | String c name => if Ascii.eqb c ":" then Some name else None
  | EmptyString => None
  end.

Fixpoint placeholder_names (segs : list string) : list string :=
  match segs with
  | [] => []
  | seg :: segs' =>
      match placeholder_name seg with
      | Some name => name :: placeholder_names segs'
      | None => placeholder_names segs'
      end
  end.

Definition no_char (c : ascii) (s : string) : bool := negb (mem_ascii c s).

(** A placeholder whose name is among [keys] stands for the encoded
    value of the argument; any other segment stands for itself. *)
Definition fill_from (a : object) (keys : list string) (seg : string)
  : string :=
  match placeholder_name seg with
  | Some name =>
      if existsb (String.eqb name) keys
      then encodeURIComponent (String_ (get a name))
      else seg
  | None => seg
  end.

Definition fill (a : object) (seg : string) : string :=
  fill_from a (Object_keys a) seg.

(** Segments written one after the other, each behind a separator. *)
Fixpoint prefixed (sep : string) (l : list string) : string :=
  match l with
  | [] => EmptyString
  | s :: l' => sep ++ s ++ prefixed sep l'
  end.

(** Text that is over, or goes on with a slash. *)
Definition clean (u : string) : Prop :=
  match u with
  | EmptyString => True
  | String c _ => c = "/"%char
  end.

(** The first segment equal to [p] gives way to [r]. *)
Fixpoint replace_segment (p r : string) (segs : list string) : list string :=
  match segs with
  | [] => []
  | seg :: segs' =>
      if (seg =? p)%string then r :: segs'
      else seg :: replace_segment p r segs'
  end.

Definition swap_segment (p r seg : string) : string :=
  if (seg =? p)%string then r else seg.

(** A key fits the segments when it has no slash and is no proper
    beginning of the name of a placeholder among them. *)
Definition fits (segs : list string) (key : string) : bool :=
  no_char "/" key
  && forallb (fun name => negb (prefix key name) || (key =? name)%string)
       (placeholder_names segs).

Definition expected_path (template : string) (a : object) : string :=
  join "/" (map (fill a) (segments template)).

(** A segment of a well-formed template has a colon, if any, in front
    only; and no placeholder is written twice. *)
Definition segment_ok (seg : string) : bool :=
  match seg with
  | EmptyString => true
  | String _ rest => no_char ":" rest
  end.

Fixpoint distinct (l : list string) : bool :=
  match l with
  | [] => true
  | x :: l' => negb (existsb (String.eqb x) l') && distinct l'
  end.

Definition template_ok (template : string) : bool :=
  forallb segment_ok (segments template)
  && distinct (placeholder_names (segments template)).

Definition key_fits (template key : string) : bool :=
  fits (segments template) key.

(** The entries that are neither [null] nor [undefined]. *)
Definition nullish (v : value) : bool :=
  match v with
  | VUndefined | VNull => true
  | _ => false
  end.

Definition present (a : object) : object :=
  List.filter (fun kv => negb (nullish (snd kv))) a.

Definition query_pair (kv : string * value) : string :=
  form_urlencode (fst kv) ++ "=" ++ form_urlencode (String_ (snd kv)).

Definition expected_query (a : object) : string :=
  join "&" (map query_pair (present a)).

(** Every character of the string passes the test. *)
Definition all_chars (P : ascii -> bool) (s : string) : bool :=
  forallb P (list_ascii_of_string s).

(** The characters [encodeURIComponent] can emit. *)
Definition uri_char (c : ascii) : bool :=
  is_alnum c || mem_ascii c "-_.!~*'()%".

(** The characters the serializer of query names and values can emit:
    none of them is reserved in a URL but the plus and percent signs the
    serializer writes itself. *)
Definition query_char (c : ascii) : bool :=
  is_alnum c || mem_ascii c "*-._+%".

(** The far side of the query: the parser of
    [application/x-www-form-urlencoded].  The text is split at [&],
    empty pieces are skipped, each piece is cut at its first [=], and in
    name and value a [+] stands for a space and [%XY] for a byte. *)
Definition hex_value (c : ascii) : option N :=
  let n := N_of_ascii c in
  if ((48 <=? n) && (n <=? 57))%N then Some (n - 48)%N
  else if ((65 <=? n) && (n <=? 70))%N then Some (n - 55)%N
  else if ((97 <=? n) && (n <=? 102))%N then Some (n - 87)%N
  else None.

Fixpoint form_urldecode (s : string) : string :=
  match s with
  | EmptyString => EmptyString
  | String c s' =>
      if Ascii.eqb c "+" then String " " (form_urldecode s')
      else if Ascii.eqb c "%" then
        match s' with
        | String x (String y s'') =>
            match hex_value x, hex_value y with
            | Some hi, Some lo =>
                String (ascii_of_N (16 * hi + lo)) (form_urldecode s'')
            | _, _ => String c (form_urldecode s')
            end
        | _ => String c (form_urldecode s')
        end
      else String c (form_urldecode s')
  end.

Fixpoint cut_pair (s : string) : string * string :=
  match s with
  | EmptyString => (EmptyString, EmptyString)
  | String c s' =>
      if Ascii.eqb c "=" then (EmptyString, s')
      else let '(name, value) := cut_pair s' in (String c name, value)
  end.

Definition parse_query (q : string) : list (string * string) :=
  map (fun piece =>
         let '(name, value) := cut_pair piece in
         (form_urldecode name, form_urldecode value))
    (List.filter (fun piece => negb (piece =? "")%string) (split "&" q)).

(** What follows the path in the URL of a call with arguments. *)
Definition expected_suffix (m : http_method) (a : object) : string :=
  match m with
  | POST => ""
  | GET | DELETE =>
      match present a with
      | [] => ""
      | _ :: _ => "?" ++ expected_query a
      end
  end.

(** The completion of a call. *)
Definition result (r : outcome value * option Z * list effect)
  : outcome value := fst (fst r).

(** What reaches the transport: the first argument of [fetch]. *)
Definition transport_input (r : outcome value * option Z * list effect)
  : option string :=
  match snd r with
  | call_fetch input _ :: _ => Some input
  | _ => None
  end.

Definition transport_method (r : outcome value * option Z * list effect)
  : option http_method :=
  match snd r with
  | call_fetch _ options :: _ => Some (init_method options)
  | _ => None
  end.

(** Calls one after the other, [window._lastAuthErrorTime] flowing from
    one to the next; the effects of all, in order. *)
Record call : Type := {
  call_env : env;
  call_cmd : string;
  call_args : option object
}.

Fixpoint requests (cs : list call) (last : option Z)
  : list effect * option Z :=
  match cs with
  | [] => ([], last)
  | c :: cs' =>
      let '(_, last1, effects) :=
        request (call_env c) (call_cmd c) (call_args c) last in
      let '(effects', last2) := requests cs' last1 in
      ((effects ++ effects')%list, last2)
  end.

Definition is_unauthorized_event (e : effect) : bool :=
  match e with
  | dispatchEvent type => (type =? "abv-unauthorized")%string
  | _ => false
  end.

Definition notifications (effects : list effect) : nat :=
  List.length (List.filter is_unauthorized_event effects).

(** A remote call whose response has the given status. *)
Definition fails_with (code : Z) (c : call) : bool :=
  negb (isTauri (call_env c))
  && match lookup COMMAND_MAPPING (call_cmd c) with
     | Some mapping =>
         let '(url, options) := build (call_env c) mapping (call_args c) in
         match fetch (call_env c) url options with
         | resolved response => (status response =? code)%Z
         | rejected _ => false
         end
     | None => false
     end.

(** A browser without a stored key whose transport always answers [r];
    its [JSON_stringify] is consulted by POST calls only, and the sample
    calls below are GET and DELETE calls. *)
Definition browser (r : outcome Response) (now : Z) : env :=
  {| isTauri := false;
     invoke := fun _ _ => rejected VUndefined;
     localStorage_getItem := fun _ => None;
     JSON_stringify := fun _ => "";
     fetch := fun _ _ => r;
     Date_now := now |}.

(** The native embedding whose call interface always answers [r]. *)
Definition native (r : outcome value) : env :=
  {| isTauri := true;
     invoke := fun _ _ => r;
     localStorage_getItem := fun _ => None;
     JSON_stringify := fun _ => "";
     fetch := fun _ _ => rejected VUndefined;
     Date_now := 0 |}.

Definition now_of (c : call) : Z := Date_now (call_env c).

(** The time the notification last fired, as the gate reads it. *)
Definition last_fired (last : option Z) : Z :=
  match last with
  | Some t => t
  | None => 0%Z
  end.

(** Sample responses. *)
Definition no_content : Response :=
  {| status := 204; text := ""; json := None |}.

Definition unauthorized_response : Response :=
  {| status := 401; text := "Unauthorized"; json := None |}.

Definition server_error_empty : Response :=
  {| status := 500; text := ""; json := None |}.

Definition plain_text : Response :=
  {| status := 200; text := "pong"; json := None |}.

(** A remote call of [list_accounts] at time [now] answered by 401. *)
Definition failing_call (now : Z) : call :=
  {| call_env := browser (resolved unauthorized_response) now;
     call_cmd := "list_accounts";
     call_args := None |}.

(** Following the specification: a failure of the native interface
    wrapped as a [TransportError] around its cause. *)
Definition TransportError (cause : value) : value :=
  VError "TransportError" (String_ cause).

End Reading.

(** ** Reading the claims: snapshots and sample logs *)

Module ConsoleReading.
Import JS DebugConsole.

(** The snapshot an action installs, if it installs one, holds at most
    [MAX_LOGS] records. *)
Definition snapshot_within (a : action) : bool :=
  match a with
  | do_enable _ (resolved snapshot) _
  | do_loadLogs (resolved snapshot)
  | do_checkEnabled _ (resolved snapshot) _ =>
      (List.length snapshot <=? MAX_LOGS)%nat
  | _ => true
  end.

(** The buffer is within capacity. *)
Definition bounded (w : world) : Prop :=
  List.length (logs (store w)) <= MAX_LOGS.

Definition sample_log (n : nat) : LogEntry :=
  {| id := Z.of_nat n;
     timestamp := 1700000000000 + Z.of_nat n;
     level := INFO;
     target := "proxy";
     message := "request";
     fields := [] |}.

(** The records numbered from [0] to [n - 1]. *)
Definition sample_logs (n : nat) : list LogEntry := map sample_log (seq 0 n).

(** A store that listens through registration [0] and holds [l]. *)
Definition listening (l : list LogEntry) : world :=
  {| store := {| isEnabled := true; logs := l; unlistenFn := Some 0 |};
     listeners := [0]; next_handle := 1; trace := [] |}.

End ConsoleReading.

(** ** More of the gateway: options, headers, single calls *)

Module GatewayReading.
Import JS Request Reading.

(** The second argument of [fetch]. *)
Definition transport_options (r : outcome value * option Z * list effect)
  : option RequestInit :=
  match snd r with
  | call_fetch _ options :: _ => Some options
  | _ => None
  end.

(** The value sent under a header name. *)
Fixpoint header (name : string) (headers : list (string * string))
  : option string :=
  match headers with
  | [] => None
  | (n, v) :: headers' =>
      if (n =? name)%string then Some v else header name headers'
  end.

(** How many times the transport was called. *)
Definition is_fetch (e : effect) : bool :=
  match e with
  | call_fetch _ _ => true
  | _ => false
  end.

Definition fetches (effects : list effect) : nat :=
  List.length (List.filter is_fetch effects).

(** The answer to the [fetch] of a call, read off its effects: the
    call made none, or [fetch] resolved with a response or rejected. *)
Definition answered (E : env) (effects : list effect)
  : option (outcome Response) :=
  match effects with
  | call_fetch input options :: _ => Some (fetch E input options)
  | _ => None
  end.

Definition answered_401 (E : env) (effects : list effect) : bool :=
  match answered E effects with
  | Some (resolved response) => (status response =? 401)%Z
  | _ => false
  end.

(** The call as a record, to run it among others. *)
Definition a_call (E : env) (cmd : string) (args : option object) : call :=
  {| call_env := E; call_cmd := cmd; call_args := args |}.

(** A browser that holds the admin key [key]. *)
Definition keyed_browser (key : string) (r : outcome Response) (now : Z)
  : env :=
  {| isTauri := false;
     invoke := fun _ _ => rejected VUndefined;
     localStorage_getItem :=
       fun name => if (name =? "abv_admin_api_key")%string then Some key
                   else None;
     JSON_stringify := fun _ => "";
     fetch := fun _ _ => r;
     Date_now := now |}.

(** Sample responses of the far side to a refused call. *)
Definition quoted (s : string) : string :=
  String (ascii_of_nat 34) (s ++ String (ascii_of_nat 34) "").

Definition refused_with_message : Response :=
  {| status := 403;
     text := "{" ++ quoted "error" ++ ":" ++ quoted "Forbidden" ++ "}";
     json := Some (VObj [("error", VStr "Forbidden")]) |}.

End GatewayReading.

(** ** More of the store: the subscription and the channel *)

Module StoreReading.
Import JS DebugConsole ConsoleReading.

(** The live registrations are the store's own: the one whose
    [unlisten] function the store holds, or none. *)
Definition synced (w : world) : Prop :=
  listeners w
  = match unlistenFn (store w) with
    | Some h => [h]
    | None => []
    end.

End StoreReading.

(** ** The console panel ([components/debug/DebugConsole.tsx]) and the
    view fields of the store *)

Module ConsoleView.
Import JS DebugConsole.

(** The fields of the store that only the panel reads and writes. *)
Record view : Type := {
  isOpen : bool;
  filter : list LogLevel;
  searchTerm : string;
  autoScroll : bool
}.

Definition initial_view : view :=
  {| isOpen := false; filter := [ERROR; WARN; INFO]; searchTerm := "";
     autoScroll := true |}.

Definition open (v : view) : view :=
  {| isOpen := true; filter := filter v; searchTerm := searchTerm v;
     autoScroll := autoScroll v |}.

Definition close (v : view) : view :=
  {| isOpen := false; filter := filter v; searchTerm := searchTerm v;
     autoScroll := autoScroll v |}.

Definition toggle (v : view) : view :=
  {| isOpen := negb (isOpen v); filter := filter v;
     searchTerm := searchTerm v; autoScroll := autoScroll v |}.

Definition setFilter (levels : list LogLevel) (v : view) : view :=
  {| isOpen := isOpen v; filter := levels; searchTerm := searchTerm v;
     autoScroll := autoScroll v |}.

Definition setSearchTerm (term : string) (v : view) : view :=
  {| isOpen := isOpen v; filter := filter v; searchTerm := term;
     autoScroll := autoScroll v |}.

Definition setAutoScroll (enabled : bool) (v : view) : view :=
  {| isOpen := isOpen v; filter := filter v; searchTerm := searchTerm v;
     autoScroll := enabled |}.

(** [a === b] on levels. *)
Definition LogLevel_eqb (a b : LogLevel) : bool :=
  match a, b with
  | ERROR, ERROR | WARN, WARN | INFO, INFO | DEBUG, DEBUG | TRACE, TRACE =>
      true
  | _, _ => false
  end.

(** [filter.includes(level)]. *)
Definition includes_level (levels : list LogLevel) (level : LogLevel) : bool :=
  existsb (fun l => LogLevel_eqb l level) levels.

Definition toggleLevel (v : view) (level : LogLevel) : view :=
  if includes_level (filter v) level
  then setFilter (List.filter (fun l => negb (LogLevel_eqb l level)) (filter v)) v
  else setFilter (filter v ++ [level])%list v.

Section LowerCase.

(** [String.prototype.toLowerCase], left to the engine. *)
Variable toLowerCase : string -> string.

(** The test of [logs.filter] that makes [filteredLogs]. *)
Definition shown (v : view) (log : LogEntry) : bool :=
  if negb (includes_level (filter v) (level log)) then false
  else if negb (searchTerm v =? "")%string
          && negb (includes (toLowerCase (message log))
                     (toLowerCase (searchTerm v)))
          && negb (includes (toLowerCase (target log))
                     (toLowerCase (searchTerm v)))
  then false
  else true.

Definition filteredLogs (v : view) (logs : list LogEntry) : list LogEntry :=
  List.filter (shown v) logs.

End LowerCase.

(** [Object.keys(LEVEL_CONFIG)]. *)
Definition LEVELS : list LogLevel := [ERROR; WARN; INFO; DEBUG; TRACE].

(** The footer: for each level its count in the buffer, levels without
    a record left out. *)
Definition level_count (logs : list LogEntry) (level : LogLevel) : nat :=
  List.length (List.filter (fun l => LogLevel_eqb (DebugConsole.level l) level) logs).

Definition level_stats (logs : list LogEntry) : list (LogLevel * nat) :=
  List.filter (fun stat => negb (snd stat =? 0)%nat)
    (map (fun level => (level, level_count logs level)) LEVELS).

Definition total (stats : list (LogLevel * nat)) : nat :=
  fold_right (fun stat n => snd stat + n) 0 stats.

(** [target.split('::')]. *)
Definition push_front (c : ascii) (pieces : list string) : list string :=
  match pieces with
  | piece :: rest => String c piece :: rest
  | [] => [String c EmptyString]
  end.

Fixpoint split_colons (s : string) : list string :=
  match s with
  | EmptyString => [EmptyString]
  | String c s' =>
      match s' with
      | String c' s'' =>
          if Ascii.eqb c ":" && Ascii.eqb c' ":"
          then EmptyString :: split_colons s''
          else push_front c (split_colons s')
      | EmptyString => push_front c (split_colons s')
      end
  end.

(** The target as a row shows it:
    [target.split('::').slice(-2).join('::')]. *)
Definition display_target (target : string) : string :=
  join "::" (slice_last 2 (split_colons target)).

(** Lower case on the letters A to Z, as [toLowerCase] acts on text
    without other letters. *)
Definition lower_ascii (c : ascii) : ascii :=
  let n := N_of_ascii c in
  if ((65 <=? n) && (n <=? 90))%N then ascii_of_N (n + 32) else c.

Fixpoint lower (s : string) : string :=
  match s with
  | EmptyString => EmptyString
  | String c s' => String (lower_ascii c) (lower s')
  end.

Definition entry (l : LogLevel) (target message : string) : LogEntry :=
  {| id := 0; timestamp := 0; level := l; target := target;
     message := message; fields := [] |}.

End ConsoleView.

(** ** The navigation bar ([components/layout/Navbar.tsx]) *)

Module Navbar.
Import JS.

(** [s.startsWith(p)]. *)
Definition startsWith (s p : string) : bool := prefix p s.

(** The paths of [navItems], in order. *)
Definition navItems : list string :=
  ["/"; "/accounts"; "/api-proxy"; "/monitor"; "/token-stats"; "/security";
   "/settings"].

(** [isActive(path)] at [location.pathname = pathname]. *)
Definition isActive (pathname path : string) : bool :=
  if (path =? "/")%string then (pathname =? "/")%string
  else startsWith pathname path.

Record language : Type := { code : string; label : string; short : string }.

Definition languages : list language :=
  [ {| code := "zh"; label := "简体中文"; short := "ZH" |};
    {| code := "zh-TW"; label := "繁體中文"; short := "TW" |};
    {| code := "en"; label := "English"; short := "EN" |};
    {| code := "ja"; label := "日本語"; short := "JA" |};
    {| code := "tr"; label := "Türkçe"; short := "TR" |};
    {| code := "vi"; label := "Tiếng Việt"; short := "VI" |};
    {| code := "pt"; label := "Português"; short := "PT" |};
    {| code := "ko"; label := "한국어"; short := "KO" |};
    {| code := "ru"; label := "Русский"; short := "RU" |};
    {| code := "ar"; label := "العربية"; short := "AR" |};
    {| code := "es"; label := "Español"; short := "ES" |};
    {| code := "my"; label := "Bahasa Melayu"; short := "MY" |} ].

(** [languages.find(l => l.code === config?.language)?.short || 'EN'],
    [None] being a language that is [undefined]. *)
Definition badge (config_language : option string) : string :=
  match config_language with
  | None => "EN"
  | Some lang =>
      match find (fun l => (code l =? lang)%string) languages with
      | Some l => if (short l =? "")%string then "EN" else short l
      | None => "EN"
      end
  end.

(** [{...o, [key]: v}]: the entry is rewritten where it stands, or added
    behind the others. *)
Fixpoint put (o : object) (key : string) (v : value) : object :=
  match o with
  | [] => [(key, v)]
  | (k, v') :: o' =>
      if (k =? key)%string then (k, v) :: o' else (k, v') :: put o' key v
  end.

(** [config.theme === 'light' ? 'dark' : 'light']. *)
Definition newTheme (config : object) : string :=
  match get config "theme" with
  | VStr theme => if (theme =? "light")%string then "dark" else "light"
  | _ => "light"
  end.

(** The configuration that [toggleTheme] hands to [saveConfig], the same
    with and without a view transition; [None]: no configuration is
    loaded and nothing is saved. *)
Definition toggleTheme (config : option object) : option object :=
  match config with
  | None => None
  | Some c =>
      Some (put (put c "theme" (VStr (newTheme c)))
              "language" (get c "language"))
  end.

(** The configuration that [handleLanguageChange] hands to
    [saveConfig]. *)
Definition handleLanguageChange (config : option object) (langCode : string)
  : option object :=
  match config with
  | None => None
  | Some c =>
      Some (put (put c "language" (VStr langCode)) "theme" (get c "theme"))
  end.

End Navbar.

(** ** Actions in flight: [enable] cut at its [await] on [listen] *)

Module InFlight.
Import JS DebugConsole.

(** An async action runs without interruption from one [await] to the
    next, and other actions run in between.  [await listen(...)] is the
    call, which goes out at once, and, when the channel has answered,
    the settling: the registration live and its [unlisten] function
    returned, or the rejection thrown. *)
Definition listen_call (channel : string) : M unit :=
  emit (listened channel).

Definition listen_settle (r : outcome unit) : M handle :=
  fun w =>
    match r with
    | resolved _ =>
        (resolved (next_handle w),
         {| store := store w;
            listeners := (listeners w ++ [next_handle w])%list;
            next_handle := S (next_handle w); trace := trace w |})
    | rejected e => (rejected e, w)
    end.

(** [startListening] up to its [await]: the handle is read and, when
    there is none, [listen] is called; [true] when the action now waits
    for the channel. *)
Definition startListening_begin : M bool :=
  state <- get_state ;;
  match unlistenFn state with
  | Some _ => ret false
  | None => listen_call "log-event" ;; ret true
  end.

(** [startListening] from its [await] on: the handle is stored. *)
Definition startListening_resume (r : outcome unit) : M unit :=
  try_catch
    (unlisten <- listen_settle r ;;
     set (set_unlistenFn (Some unlisten)))
    (fun error =>
       emit (console_error "Failed to start listening for logs:" error)).

(** [enable] up to the [await] on [listen] inside [startListening], the
    backend having answered the command and the snapshot; [true] when
    the action now waits for the channel. *)
Definition enable_begin (r_enable : outcome unit)
  (r_logs : outcome (list LogEntry)) : M bool :=
  try_catch
    (invoke "enable_debug_console" r_enable ;;
     set (set_isEnabled true) ;;
     loadLogs r_logs ;;
     startListening_begin)
    (fun error =>
       emit (console_error "Failed to enable debug console:" error) ;;
       ret false).

(** [enable] from that [await] on. *)
Definition enable_resume (r_listen : outcome unit) : M unit :=
  try_catch
    (startListening_resume r_listen)
    (fun error =>
       emit (console_error "Failed to enable debug console:" error)).

(** An action that waits goes on when the channel answers; one that
    does not has ended. *)
Definition then_resume (begin : M bool) (resume : M unit) : M unit :=
  waits <- begin ;;
  if waits then resume else ret tt.

End InFlight.

(** * Properties *)

(** ** Strings *)

Module StringFacts.
Import JS Reading.

Lemma append_nil_r (s : string) : s ++ "" = s.
Proof. induction s as [|c s IH]; simpl; [reflexivity | now rewrite IH]. Qed.

Lemma append_assoc (s t u : string) : (s ++ t) ++ u = s ++ t ++ u.
Proof. induction s as [|c s IH]; simpl; [reflexivity | now rewrite IH]. Qed.

Lemma prefix_cons (a b : ascii) (p s : string) :
  prefix (String a p) (String b s) = Ascii.eqb a b && prefix p s.
Proof.
  simpl. destruct (ascii_dec a b) as [->|n].
  - now rewrite Ascii.eqb_refl.
  - apply Ascii.eqb_neq in n. now rewrite n.
Qed.

Lemma prefix_refl_append (p s : string) : prefix p (p ++ s) = true.
Proof.
  induction p as [|c p IH]; simpl; [now destruct s|].
  destruct (ascii_dec c c); [exact IH | congruence].
Qed.

Lemma drop_length_append (p s : string) : drop (length p) (p ++ s) = s.
Proof. induction p as [|c p IH]; simpl; [now destruct s | exact IH]. Qed.

(** A string without an occurrence of the pattern is returned as it is,
    so the [includes] test in front of [replace] changes nothing. *)
Lemma replace_not_included (s p r : string) :
  includes s p = false -> replace s p r = s.
Proof.
  induction s as [|c s IH]; cbn [includes replace].
  - destruct (prefix p ""); [discriminate | reflexivity].
  - destruct (prefix p (String c s)); [discriminate|].
    intros H. now rewrite IH.
Qed.

Lemma replace_skip (a c : ascii) (k s r : string) :
  Ascii.eqb a c = false ->
  replace (String c s) (String a k) r = String c (replace s (String a k) r).
Proof.
  intros H. cbn [replace]. now rewrite prefix_cons, H.
Qed.

Lemma mem_ascii_cons (a c : ascii) (s : string) :
  mem_ascii a (String c s) = Ascii.eqb a c || mem_ascii a s.
Proof. reflexivity. Qed.

Lemma mem_ascii_append (a : ascii) (s t : string) :
  mem_ascii a (s ++ t) = mem_ascii a s || mem_ascii a t.
Proof.
  induction s as [|c s IH]; [reflexivity|].
  cbn [append]. rewrite !mem_ascii_cons, IH. now rewrite orb_assoc.
Qed.

(** The scan for a pattern passes over text that lacks the pattern's
    first character. *)
Lemma replace_pass (a : ascii) (k t u r : string) :
  mem_ascii a t = false ->
  replace (t ++ u) (String a k) r = t ++ replace u (String a k) r.
Proof.
  induction t as [|c t IH]; intros H; [reflexivity|].
  rewrite mem_ascii_cons in H. apply orb_false_iff in H as [Hc Ht].
  cbn [append]. rewrite replace_skip by exact Hc. now rewrite IH.
Qed.

Lemma all_chars_append (P : ascii -> bool) (s t : string) :
  all_chars P (s ++ t) = all_chars P s && all_chars P t.
Proof.
  induction s as [|c s IH]; [reflexivity|].
  cbn [append]. unfold all_chars in *. cbn [list_ascii_of_string forallb].
  now rewrite IH, andb_assoc.
Qed.

Lemma all_chars_mem (P : ascii -> bool) (s : string) (a : ascii) :
  all_chars P s = true -> P a = false -> mem_ascii a s = false.
Proof.
  intros Hs Ha. induction s as [|c s IH]; [reflexivity|].
  unfold all_chars in Hs. cbn [list_ascii_of_string forallb] in Hs.
  apply andb_true_iff in Hs as [Hc Hs]. rewrite mem_ascii_cons, (IH Hs).
  destruct (Ascii.eqb a c) eqn:E; [|reflexivity].
  apply Ascii.eqb_eq in E. congruence.
Qed.

(** Encoded text holds letters, digits, the marks and percent signs
    only. *)
Lemma encodeURIComponent_chars (s : string) :
  all_chars uri_char (encodeURIComponent s) = true.
Proof.
  induction s as [|c s IH]; [reflexivity|].
  cbn [encodeURIComponent]. rewrite all_chars_append, IH, andb_true_r.
  destruct c as [[] [] [] [] [] [] [] []]; vm_compute; reflexivity.
Qed.

Lemma encodeURIComponent_no_dollar (s : string) :
  mem_ascii "$" (encodeURIComponent s) = false.
Proof. now apply all_chars_mem with (1 := encodeURIComponent_chars s). Qed.

Lemma encodeURIComponent_no_colon (s : string) :
  mem_ascii ":" (encodeURIComponent s) = false.
Proof. now apply all_chars_mem with (1 := encodeURIComponent_chars s). Qed.

Lemma encodeURIComponent_no_slash (s : string) :
  mem_ascii "/" (encodeURIComponent s) = false.
Proof. now apply all_chars_mem with (1 := encodeURIComponent_chars s). Qed.

(** The serializer of queries emits query characters only. *)
Lemma form_urlencode_chars (s : string) :
  all_chars query_char (form_urlencode s) = true.
Proof.
  induction s as [|c s IH]; [reflexivity|].
  cbn [form_urlencode]. rewrite all_chars_append, IH, andb_true_r.
  destruct c as [[] [] [] [] [] [] [] []]; vm_compute; reflexivity.
Qed.

End StringFacts.

(** ** Path parameters *)

Module PathFacts.
Import JS Request Reading StringFacts.

Lemma join_cons (sep s : string) (l : list string) :
  join sep (s :: l) = s ++ prefixed sep l.
Proof.
  revert s. induction l as [|s' l IH]; intros s.
  - cbn. now rewrite append_nil_r.
  - change (join sep (s :: s' :: l)) with (s ++ sep ++ join sep (s' :: l)).
    now rewrite IH.
Qed.

Lemma prefixed_join (sep s : string) (l : list string) :
  prefixed sep (s :: l) = sep ++ join sep (s :: l).
Proof. now rewrite join_cons. Qed.

Lemma split_not_nil (sep : ascii) (s : string) : split sep s <> [].
Proof.
  induction s as [|c s IH]; cbn [split]; [discriminate|].
  destruct (Ascii.eqb c sep); [discriminate|].
  destruct (split sep s); discriminate.
Qed.

Lemma join_split (sep : ascii) (s : string) :
  join (String sep "") (split sep s) = s.
Proof.
  induction s as [|c s IH]; [reflexivity|].
  cbn [split]. destruct (Ascii.eqb c sep) eqn:E.
  - apply Ascii.eqb_eq in E. subst c.
    destruct (split sep s) as [|piece rest] eqn:Es;
      [now destruct (split_not_nil sep s)|].
    change (join (String sep "") ("" :: piece :: rest))
      with (String sep "" ++ join (String sep "") (piece :: rest)).
    now rewrite IH.
  - destruct (split sep s) as [|piece rest] eqn:Es;
      [now destruct (split_not_nil sep s)|].
    rewrite join_cons in *. cbn [append]. now rewrite IH.
Qed.

Lemma segments_not_nil (s : string) : segments s <> [].
Proof. apply split_not_nil. Qed.

Lemma join_segments (s : string) : join "/" (segments s) = s.
Proof. apply (join_split "/"). Qed.

Lemma split_pieces (sep : ascii) (s : string) :
  Forall (fun piece => mem_ascii sep piece = false) (split sep s).
Proof.
  induction s as [|c s IH]; cbn [split].
  - now constructor.
  - destruct (Ascii.eqb c sep) eqn:E.
    + now constructor.
    + destruct (split sep s) as [|piece rest].
      { constructor; [|constructor].
        now rewrite mem_ascii_cons, Ascii.eqb_sym, E. }
      inversion IH as [|? ? Hpiece Hrest]; subst. constructor; [|exact Hrest].
      rewrite mem_ascii_cons, Ascii.eqb_sym, E. exact Hpiece.
Qed.

(** Splitting undoes joining when no piece holds the separator. *)
Lemma split_append (sep : ascii) (s t : string) :
  mem_ascii sep s = false ->
  split sep (s ++ t)
  = match split sep t with
    | piece :: rest => (s ++ piece) :: rest
    | [] => [s]
    end.
Proof.
  induction s as [|c s IH]; intros H.
  - cbn [append]. destruct (split sep t) eqn:E; [|reflexivity].
    now destruct (split_not_nil sep t).
  - rewrite mem_ascii_cons in H. apply orb_false_iff in H as [Hc Hs].
    cbn [append split]. rewrite Ascii.eqb_sym, Hc, (IH Hs).
    destruct (split sep t) eqn:E; [|reflexivity].
    now destruct (split_not_nil sep t).
Qed.

Lemma split_join (sep : ascii) (l : list string) (s : string) :
  Forall (fun piece => mem_ascii sep piece = false) (s :: l) ->
  split sep (join (String sep "") (s :: l)) = s :: l.
Proof.
  rewrite join_cons. revert s. induction l as [|s' l IH]; intros s H.
  - inversion H as [|? ? Hs _]; subst. cbn [prefixed].
    rewrite (split_append sep s "" Hs). cbn. now rewrite append_nil_r.
  - inversion H as [|? ? Hs Hl]; subst. cbn [prefixed append].
    rewrite (split_append sep s _ Hs). cbn [split].
    rewrite Ascii.eqb_refl, (IH s' Hl). now rewrite append_nil_r.
Qed.

Lemma prefix_refl (k : string) : prefix k k = true.
Proof.
  rewrite <- (append_nil_r k) at 2. apply prefix_refl_append.
Qed.

Lemma prefixed_clean (l : list string) : clean (prefixed "/" l).
Proof. destruct l; cbn; auto. Qed.

(** A key without a slash matches at a name no further than the name
    goes. *)
Lemma prefix_before_slash (k name u : string) :
  no_char "/" k = true -> clean u ->
  prefix k (name ++ u) = prefix k name.
Proof.
  revert k. induction name as [|c name IH]; intros k Hk Hu.
  - cbn [append]. destruct k as [|a k]; [now destruct u|].
    destruct u as [|b u]; [reflexivity|].
    cbn in Hu. subst b. rewrite prefix_cons.
    unfold no_char in Hk. rewrite mem_ascii_cons in Hk.
    apply negb_true_iff, orb_false_iff in Hk as [Hk _].
    rewrite Ascii.eqb_sym, Hk. reflexivity.
  - cbn [append]. destruct k as [|a k]; [reflexivity|].
    rewrite !prefix_cons. f_equal. apply IH; [|exact Hu].
    unfold no_char in *. rewrite mem_ascii_cons in Hk.
    apply negb_true_iff, orb_false_iff in Hk as [_ Hk]. now rewrite Hk.
Qed.

Lemma fits_cons (seg : string) (segs : list string) (k : string) :
  fits (seg :: segs) k = true -> fits segs k = true.
Proof.
  unfold fits. intros H. apply andb_true_iff in H as [H1 H2].
  rewrite H1. cbn [andb]. cbn [placeholder_names] in H2.
  destruct (placeholder_name seg); [|exact H2].
  cbn [forallb] in H2. now apply andb_true_iff in H2 as [_ H2].
Qed.

(** One replacement on the text is one replacement on the segments. *)
Lemma replace_prefixed (k r : string) (segs : list string) :
  forallb segment_ok segs = true ->
  fits segs k = true ->
  replace (prefixed "/" segs) (String ":" k) r
  = prefixed "/" (replace_segment (String ":" k) r segs).
Proof.
  induction segs as [|seg segs IH]; intros Hok Hfit; [reflexivity|].
  cbn [forallb] in Hok. apply andb_true_iff in Hok as [Hseg Hok].
  specialize (IH Hok (fits_cons _ _ _ Hfit)).
  cbn [prefixed replace_segment]. cbn [append].
  rewrite replace_skip by reflexivity.
  destruct seg as [|c name].
  - cbn [append]. rewrite IH. reflexivity.
  - cbn [segment_ok] in Hseg. unfold no_char in Hseg.
    apply negb_true_iff in Hseg.
    destruct (Ascii.eqb ":" c) eqn:Ec.
    + apply Ascii.eqb_eq in Ec. subst c.
      unfold fits in Hfit. apply andb_true_iff in Hfit as [Hk Hnames].
      cbn in Hnames. apply andb_true_iff in Hnames as [Hname _].
      cbn [append]. cbn [replace].
      rewrite prefix_cons, Ascii.eqb_refl. cbn [andb].
      rewrite (prefix_before_slash k name _ Hk (prefixed_clean segs)).
      destruct (prefix k name) eqn:Hp.
      * cbn [negb orb] in Hname. apply String.eqb_eq in Hname. subst name.
        rewrite String.eqb_refl.
        change (String ":" (k ++ prefixed "/" segs))
          with (String ":" k ++ prefixed "/" segs).
        rewrite drop_length_append. reflexivity.
      * assert (Hne : (String ":" name =? String ":" k)%string = false).
        { apply String.eqb_neq. intros [= ->]. now rewrite prefix_refl in Hp. }
        rewrite Hne. cbn [prefixed append].
        rewrite replace_pass by exact Hseg. now rewrite IH.
    + assert (Hne : (String c name =? String ":" k)%string = false).
      { apply String.eqb_neq. intros [= -> _]. now rewrite Ascii.eqb_refl in Ec. }
      rewrite Hne. cbn [prefixed append].
      rewrite replace_skip by exact Ec.
      rewrite replace_pass by exact Hseg. now rewrite IH.
Qed.

Lemma replace_segment_not_nil (p r : string) (segs : list string) :
  segs <> [] -> replace_segment p r segs <> [].
Proof.
  destruct segs as [|seg segs]; [congruence|]. intros _. cbn.
  destruct (seg =? p)%string; discriminate.
Qed.

Lemma replace_join (k r : string) (segs : list string) :
  segs <> [] ->
  forallb segment_ok segs = true ->
  fits segs k = true ->
  replace (join "/" segs) (String ":" k) r
  = join "/" (replace_segment (String ":" k) r segs).
Proof.
  intros Hne Hok Hfit.
  pose proof (replace_prefixed k r segs Hok Hfit) as H.
  pose proof (replace_segment_not_nil (String ":" k) r segs Hne) as Hne'.
  destruct segs as [|seg segs]; [congruence|].
  destruct (replace_segment (String ":" k) r (seg :: segs)) as [|seg' segs'];
    [congruence|].
  rewrite !prefixed_join in H. cbn [append] in H.
  rewrite replace_skip in H by reflexivity. now injection H.
Qed.

Lemma substitute_key_replace (a : object) (url key : string) :
  substitute_key a url key
  = replace url (String ":" key) (encodeURIComponent (String_ (get a key))).
Proof.
  unfold substitute_key. cbn [append].
  destruct (includes url (String ":" key)) eqn:E; [reflexivity|].
  now rewrite replace_not_included.
Qed.

Lemma swap_absent (k r : string) (segs : list string) :
  existsb (String.eqb k) (placeholder_names segs) = false ->
  map (swap_segment (String ":" k) r) segs = segs.
Proof.
  induction segs as [|seg segs IH]; intros H; [reflexivity|].
  cbn [map placeholder_names] in *. unfold swap_segment at 1.
  destruct (seg =? String ":" k)%string eqn:E.
  - apply String.eqb_eq in E. subst seg. cbn in H.
    now rewrite String.eqb_refl in H.
  - f_equal. apply IH. destruct (placeholder_name seg); [|exact H].
    cbn [existsb] in H. now apply orb_false_iff in H as [_ H].
Qed.

Lemma distinct_tail (seg : string) (segs : list string) :
  distinct (placeholder_names (seg :: segs)) = true ->
  distinct (placeholder_names segs) = true.
Proof.
  cbn [placeholder_names]. destruct (placeholder_name seg); [|auto].
  cbn [distinct]. intros H. now apply andb_true_iff in H as [_ H].
Qed.

(** With no placeholder written twice, replacing the first segment that
    is the placeholder replaces them all. *)
Lemma replace_segment_swap (k r : string) (segs : list string) :
  distinct (placeholder_names segs) = true ->
  replace_segment (String ":" k) r segs
  = map (swap_segment (String ":" k) r) segs.
Proof.
  induction segs as [|seg segs IH]; intros H; [reflexivity|].
  cbn [replace_segment map]. unfold swap_segment at 1.
  destruct (seg =? String ":" k)%string eqn:E.
  - apply String.eqb_eq in E. subst seg. f_equal. symmetry.
    apply swap_absent. cbn in H. apply andb_true_iff in H as [H _].
    now apply negb_true_iff in H.
  - f_equal. apply IH. now apply distinct_tail in H.
Qed.

Lemma placeholder_name_plain (r : string) :
  mem_ascii ":" r = false -> placeholder_name r = None.
Proof.
  destruct r as [|c r]; [reflexivity|]. rewrite mem_ascii_cons.
  intros H. apply orb_false_iff in H as [H _]. cbn.
  now rewrite Ascii.eqb_sym, H.
Qed.

Lemma segment_ok_plain (r : string) :
  mem_ascii ":" r = false -> segment_ok r = true.
Proof.
  destruct r as [|c r]; [reflexivity|]. rewrite mem_ascii_cons.
  intros H. apply orb_false_iff in H as [_ H]. cbn. unfold no_char.
  now rewrite H.
Qed.

Lemma placeholder_names_swap (k r : string) (segs : list string) :
  mem_ascii ":" r = false ->
  placeholder_names (map (swap_segment (String ":" k) r) segs)
  = List.filter (fun name => negb (name =? k)%string) (placeholder_names segs).
Proof.
  intros Hr. induction segs as [|seg segs IH]; [reflexivity|].
  cbn [map placeholder_names]. unfold swap_segment at 1.
  destruct (seg =? String ":" k)%string eqn:E.
  - apply String.eqb_eq in E. subst seg.
    rewrite (placeholder_name_plain r Hr). cbn.
    now rewrite String.eqb_refl.
  - destruct (placeholder_name seg) as [name|] eqn:En; [|exact IH].
    cbn [List.filter]. assert (Hne : (name =? k)%string = false).
    { apply String.eqb_neq. intros ->. destruct seg as [|c seg]; [discriminate|].
      cbn in En. destruct (Ascii.eqb c ":") eqn:Ec; [|discriminate].
      apply Ascii.eqb_eq in Ec. injection En as ->. subst c.
      now rewrite String.eqb_refl in E. }
    rewrite Hne. cbn [negb]. now rewrite IH.
Qed.

Lemma existsb_filter (x : string) (f : string -> bool) (l : list string) :
  existsb (String.eqb x) (List.filter f l) = true ->
  existsb (String.eqb x) l = true.
Proof.
  induction l as [|y l IH]; [auto|]. cbn [List.filter existsb].
  destruct (f y); cbn [existsb]; intros H.
  - apply orb_true_iff in H as [H|H]; [now rewrite H|].
    rewrite (IH H). apply orb_true_r.
  - rewrite (IH H). apply orb_true_r.
Qed.

Lemma distinct_filter (f : string -> bool) (l : list string) :
  distinct l = true -> distinct (List.filter f l) = true.
Proof.
  induction l as [|y l IH]; [auto|]. cbn [distinct List.filter].
  intros H. apply andb_true_iff in H as [Hy Hl].
  destruct (f y); [|auto]. cbn [distinct]. rewrite (IH Hl), andb_true_r.
  apply negb_true_iff in Hy. apply negb_true_iff.
  destruct (existsb (String.eqb y) (List.filter f l)) eqn:E; [|reflexivity].
  apply existsb_filter in E. congruence.
Qed.

Lemma forallb_filter (g f : string -> bool) (l : list string) :
  forallb g l = true -> forallb g (List.filter f l) = true.
Proof.
  induction l as [|y l IH]; [auto|]. cbn [forallb List.filter].
  intros H. apply andb_true_iff in H as [Hy Hl].
  destruct (f y); [|auto]. cbn [forallb]. now rewrite Hy, IH.
Qed.

Lemma forallb_swap (k r : string) (segs : list string) :
  mem_ascii ":" r = false ->
  forallb segment_ok segs = true ->
  forallb segment_ok (map (swap_segment (String ":" k) r) segs) = true.
Proof.
  intros Hr. induction segs as [|seg segs IH]; [auto|].
  cbn [map forallb]. intros H. apply andb_true_iff in H as [Hs Hl].
  rewrite (IH Hl), andb_true_r. unfold swap_segment.
  destruct (seg =? String ":" k)%string; [|exact Hs].
  now apply segment_ok_plain.
Qed.

Lemma fill_from_swap (a : object) (k : string) (keys : list string)
  (seg : string) :
  fill_from a keys
    (swap_segment (String ":" k) (encodeURIComponent (String_ (get a k))) seg)
  = fill_from a (k :: keys) seg.
Proof.
  unfold swap_segment. destruct (seg =? String ":" k)%string eqn:E.
  - apply String.eqb_eq in E. subst seg. unfold fill_from.
    rewrite (placeholder_name_plain _ (encodeURIComponent_no_colon _)).
    cbn. now rewrite String.eqb_refl.
  - unfold fill_from. destruct (placeholder_name seg) as [name|] eqn:En;
      [|reflexivity].
    cbn [existsb]. assert (Hne : (name =? k)%string = false).
    { apply String.eqb_neq. intros ->. destruct seg as [|c seg]; [discriminate|].
      cbn in En. destruct (Ascii.eqb c ":") eqn:Ec; [|discriminate].
      apply Ascii.eqb_eq in Ec. injection En as ->. subst c.
      now rewrite String.eqb_refl in E. }
    now rewrite Hne.
Qed.

(** The rounds over the keys, read on the segments. *)
Lemma fold_substitute (a : object) (keys : list string) :
  forall segs : list string,
    segs <> [] ->
    forallb segment_ok segs = true ->
    distinct (placeholder_names segs) = true ->
    forallb (fits segs) keys = true ->
    fold_left (substitute_key a) keys (join "/" segs)
    = join "/" (map (fill_from a keys) segs).
Proof.
  induction keys as [|k keys IH]; intros segs Hne Hok Hd Hfit.
  - cbn [fold_left]. f_equal. symmetry. rewrite <- (map_id segs) at 2.
    apply map_ext. intros seg. unfold fill_from.
    now destruct (placeholder_name seg).
  - cbn [forallb] in Hfit. apply andb_true_iff in Hfit as [Hk Hfit].
    cbn [fold_left]. rewrite substitute_key_replace.
    set (r := encodeURIComponent (String_ (get a k))).
    assert (Hr : mem_ascii ":" r = false) by apply encodeURIComponent_no_colon.
    rewrite (replace_join k r segs Hne Hok Hk).
    rewrite (replace_segment_swap k r segs Hd).
    rewrite IH.
    + rewrite map_map. f_equal. apply map_ext. intros seg.
      apply fill_from_swap.
    + destruct segs; [congruence | discriminate].
    + now apply forallb_swap.
    + rewrite (placeholder_names_swap k r segs Hr). now apply distinct_filter.
    + apply forallb_forall. intros k' Hin.
      pose proof (proj1 (forallb_forall _ _) Hfit k' Hin) as Hk'.
      unfold fits in *. apply andb_true_iff in Hk' as [H1 H2].
      rewrite H1. cbn [andb].
      rewrite (placeholder_names_swap k r segs Hr). now apply forallb_filter.
Qed.

(** Every template of the table is well formed. *)
Lemma table_templates :
  forallb (fun entry => template_ok (url (snd entry))) COMMAND_MAPPING = true.
Proof. vm_compute. reflexivity. Qed.

Lemma lookup_In (table : list (string * descriptor)) (cmd : string)
  (d : descriptor) :
  lookup table cmd = Some d -> In (cmd, d) table.
Proof.
  induction table as [|[name d'] table IH]; [discriminate|].
  cbn [lookup]. destruct (name =? cmd)%string eqn:E.
  - apply String.eqb_eq in E. intros [= ->]. subst. now left.
  - intros H. right. auto.
Qed.

Lemma lookup_template_ok (cmd : string) (d : descriptor) :
  lookup COMMAND_MAPPING cmd = Some d -> template_ok (url d) = true.
Proof.
  intros H. apply lookup_In in H.
  exact (proj1 (forallb_forall _ _) table_templates (cmd, d) H).
Qed.

(** The path sent for a well-formed template. *)
Lemma substitute_path_expected (template : string) (a : object) :
  template_ok template = true ->
  forallb (key_fits template) (Object_keys a) = true ->
  substitute_path template (Some a) = expected_path template a.
Proof.
  intros Hok Hfit. unfold template_ok in Hok.
  apply andb_true_iff in Hok as [Hsegs Hd].
  unfold substitute_path, expected_path.
  rewrite <- (join_segments template) at 1.
  apply fold_substitute; auto. apply segments_not_nil.
Qed.

End PathFacts.

(** ** The request gateway *)

Module RequestFacts.
Import JS Request Reading StringFacts PathFacts.

(** On the remote path the transport receives what [build] made. *)
Lemma request_remote (E : env) (cmd : string) (d : descriptor)
  (args : option object) (last : option Z) :
  isTauri E = false ->
  lookup COMMAND_MAPPING cmd = Some d ->
  transport_input (request E cmd args last) = Some (fst (build E d args))
  /\ transport_method (request E cmd args last) = Some (method d).
Proof.
  intros Ht Hd. unfold request, attempt. rewrite Ht, Hd.
  assert (Hm : init_method (snd (build E d args)) = method d).
  { unfold build. destruct (method d), args; reflexivity. }
  destruct (build E d args) as [u o]. cbn [fst snd] in *.
  destruct (match fetch E u o with
            | resolved response => respond cmd response (Date_now E) last
            | rejected error => (rejected error, last, [])
            end) as [[res last'] effects].
  destruct res; cbn; rewrite Hm; auto.
Qed.

Lemma query_params_fold (a : object) (acc : URLSearchParams) :
  fold_left
    (fun params kv =>
       match snd kv with
       | VUndefined | VNull => params
       | value => URLSearchParams_append params (fst kv) (String_ value)
       end) a acc
  = (acc ++ map (fun kv => (fst kv, String_ (snd kv))) (present a))%list.
Proof.
  revert acc. induction a as [|[k v] a IH]; intros acc.
  - cbn. now rewrite app_nil_r.
  - cbn [fold_left]. rewrite IH. unfold present. cbn [List.filter fst snd].
    destruct v; cbn [nullish negb map]; try reflexivity;
      unfold URLSearchParams_append; now rewrite <- app_assoc.
Qed.

(** The parameters are the present entries, in order. *)
Lemma query_params_present (a : object) :
  query_params a = map (fun kv => (fst kv, String_ (snd kv))) (present a).
Proof. unfold query_params, Object_entries. now rewrite query_params_fold. Qed.

Lemma query_string_expected (a : object) :
  URLSearchParams_toString (query_params a) = expected_query a.
Proof.
  unfold URLSearchParams_toString, expected_query.
  now rewrite query_params_present, map_map.
Qed.

Lemma append_not_empty (s t u : string) : (s ++ "=" ++ t) ++ u <> "".
Proof. destruct s; discriminate. Qed.

Lemma expected_query_empty (a : object) :
  (expected_query a =? "")%string
  = match present a with [] => true | _ :: _ => false end.
Proof.
  unfold expected_query. destruct (present a) as [|kv l]; [reflexivity|].
  cbn [map]. rewrite join_cons. apply String.eqb_neq, append_not_empty.
Qed.

(** Parsing gives back what was serialized. *)
Lemma form_urldecode_encode (s : string) :
  form_urldecode (form_urlencode s) = s.
Proof.
  induction s as [|c s IH]; [reflexivity|].
  cbn [form_urlencode]. rewrite <- IH at 2.
  generalize (form_urlencode s). intros t.
  destruct c as [[] [] [] [] [] [] [] []]; reflexivity.
Qed.

Lemma cut_pair_append (name value : string) :
  mem_ascii "=" name = false ->
  cut_pair (name ++ "=" ++ value) = (name, value).
Proof.
  induction name as [|c name IH]; intros H; [reflexivity|].
  rewrite mem_ascii_cons in H. apply orb_false_iff in H as [Hc Hn].
  cbn [append cut_pair]. rewrite Ascii.eqb_sym, Hc.
  change (name ++ String "=" value) with (name ++ "=" ++ value).
  now rewrite (IH Hn).
Qed.

Lemma form_urlencode_plain (a : ascii) (s : string) :
  query_char a = false -> mem_ascii a (form_urlencode s) = false.
Proof. apply all_chars_mem, form_urlencode_chars. Qed.

Lemma query_pair_not_empty (kv : string * value) :
  (query_pair kv =? "")%string = false.
Proof.
  apply String.eqb_neq. unfold query_pair.
  destruct (form_urlencode (fst kv)); discriminate.
Qed.

Lemma query_pair_cut (kv : string * value) :
  cut_pair (query_pair kv)
  = (form_urlencode (fst kv), form_urlencode (String_ (snd kv))).
Proof. apply cut_pair_append. now apply form_urlencode_plain. Qed.

Lemma query_pair_plain (kv : string * value) :
  mem_ascii "&" (query_pair kv) = false.
Proof.
  unfold query_pair.
  now rewrite !mem_ascii_append, !form_urlencode_plain.
Qed.

Lemma parse_query_expected (a : object) :
  parse_query (expected_query a)
  = map (fun kv => (fst kv, String_ (snd kv))) (present a).
Proof.
  unfold parse_query, expected_query.
  destruct (present a) as [|kv l]; [reflexivity|].
  change (map query_pair (kv :: l)) with (query_pair kv :: map query_pair l).
  rewrite (split_join "&").
  - change (query_pair kv :: map query_pair l)
      with (map query_pair (kv :: l)).
    generalize (kv :: l). intros l'.
    induction l' as [|kv' l' IH]; [reflexivity|].
    cbn [map List.filter]. rewrite query_pair_not_empty. cbn [negb map].
    rewrite query_pair_cut, !form_urldecode_encode. now rewrite IH.
  - change (query_pair kv :: map query_pair l)
      with (map query_pair (kv :: l)).
    apply Forall_map, Forall_forall. intros kv' _. apply query_pair_plain.
Qed.

(** The URL of a call with arguments. *)
Lemma build_url (E : env) (d : descriptor) (a : object) :
  fst (build E d (Some a))
  = substitute_path (url d) (Some a) ++ expected_suffix (method d) a.
Proof.
  unfold build, expected_suffix.
  destruct (method d); cbn [fst];
    rewrite ?query_string_expected, ?expected_query_empty;
    try (destruct (present a)); now rewrite ?append_nil_r.
Qed.

Lemma build_url_no_args (E : env) (d : descriptor) :
  fst (build E d None) = url d.
Proof. unfold build. now destruct (method d). Qed.

(** *** Path parameters *)

(** C1 (as amended).  For a command of the table dispatched on the
    remote path with arguments whose keys fit the template (no slash in
    a key, no key a proper beginning of a placeholder name), the
    transport receives the template in which every placeholder whose key
    the arguments hold is replaced by the encoded string form of the
    argument and every other placeholder is left as written, followed,
    for GET and DELETE, by the query over all present arguments, the
    substituted keys included. *)
Theorem path_parameters (E : env) (cmd : string) (d : descriptor)
  (a : object) (last : option Z) :
  isTauri E = false ->
  lookup COMMAND_MAPPING cmd = Some d ->
  forallb (key_fits (url d)) (Object_keys a) = true ->
  transport_input (request E cmd (Some a) last)
  = Some (expected_path (url d) a ++ expected_suffix (method d) a)
  /\ (forall name : string,
        fill a (String ":" name)
        = if existsb (String.eqb name) (Object_keys a)
          then encodeURIComponent (String_ (get a name))
          else String ":" name).
Proof.
  intros Ht Hd Hfit. split; [|reflexivity].
  destruct (request_remote E cmd d (Some a) last Ht Hd) as [-> _].
  rewrite build_url. f_equal. f_equal.
  apply substitute_path_expected; [|exact Hfit].
  now apply lookup_template_ok with (cmd := cmd).
Qed.

Lemma path_parameters_witness :
  isTauri (browser (resolved no_content) 0) = false
  /\ lookup COMMAND_MAPPING "delete_account"
     = Some {| url := "/api/accounts/:accountId"; method := DELETE |}
  /\ forallb (key_fits "/api/accounts/:accountId")
       (Object_keys [("accountId", VStr "42")]) = true
  /\ transport_input
       (request (browser (resolved no_content) 0) "delete_account"
          (Some [("accountId", VStr "42")]) None)
     = Some "/api/accounts/42?accountId=42".
Proof.
  split; [reflexivity | split; [reflexivity | split; [reflexivity|]]].
  exact (proj1 (path_parameters (browser (resolved no_content) 0)
                  "delete_account"
                  {| url := "/api/accounts/:accountId"; method := DELETE |}
                  [("accountId", VStr "42")] None
                  eq_refl eq_refl eq_refl)).
Defined.

(** C1 (against the claim as stated).  [delete_account] called with an
    empty argument mapping sends its placeholder, unresolved, to the
    transport. *)
Lemma unresolved_placeholder_sent :
  transport_input
    (request (browser (resolved no_content) 0) "delete_account" (Some []) None)
  = Some "/api/accounts/:accountId"
  /\ includes "/api/accounts/:accountId" ":accountId" = true.
Proof. split; reflexivity. Qed.

(** A key that does not fit: [account] is a proper beginning of the
    placeholder name [accountId], and its value lands in the
    placeholder's place. *)
Lemma key_beginning_a_placeholder_name :
  forallb (key_fits "/api/accounts/:accountId") ["account"; "accountId"]
  = false
  /\ transport_input
       (request (browser (resolved no_content) 0) "delete_account"
          (Some [("account", VStr "x"); ("accountId", VStr "42")]) None)
     = Some "/api/accounts/xId?account=x&accountId=42".
Proof. split; reflexivity. Qed.

(** *** Query strings *)

(** C7.  A GET or DELETE command dispatched on the remote path with
    arguments sends its path followed by the query made of exactly the
    entries whose value is neither [null] nor [undefined], in order, as
    [name=value] joined by [&] behind a question mark, and by nothing
    when no entry is present.  Names and values are encoded: they hold
    letters, digits and [* - . _ + %] only, so that the query parses
    back to exactly those entries.  Without arguments the template is
    sent as it is. *)
Theorem query_string (E : env) (cmd : string) (d : descriptor)
  (a : object) (last : option Z) :
  isTauri E = false ->
  lookup COMMAND_MAPPING cmd = Some d ->
  method d = GET \/ method d = DELETE ->
  transport_input (request E cmd (Some a) last)
  = Some (substitute_path (url d) (Some a)
          ++ match present a with
             | [] => ""
             | _ :: _ => "?" ++ expected_query a
             end)
  /\ (forall kv : string * value,
        In kv a ->
        (In kv (present a) <-> snd kv <> VNull /\ snd kv <> VUndefined))
  /\ parse_query (expected_query a)
     = map (fun kv => (fst kv, String_ (snd kv))) (present a)
  /\ (forall kv : string * value,
        all_chars query_char (form_urlencode (fst kv)) = true
        /\ all_chars query_char (form_urlencode (String_ (snd kv))) = true)
  /\ transport_input (request E cmd None last) = Some (url d)
  /\ transport_method (request E cmd None last) = Some (method d).
Proof.
  intros Ht Hd Hm. split; [|split; [|split; [|split; [|split]]]].
  - destruct (request_remote E cmd d (Some a) last Ht Hd) as [-> _].
    rewrite build_url. unfold expected_suffix.
    now destruct Hm as [-> | ->].
  - intros kv Hin. unfold present. rewrite filter_In. split.
    + intros [_ H]. destruct (snd kv); cbn in H; split; congruence.
    + intros [H1 H2]. split; [exact Hin|].
      destruct (snd kv); cbn; congruence.
  - apply parse_query_expected.
  - intros kv. split; apply form_urlencode_chars.
  - destruct (request_remote E cmd d None last Ht Hd) as [-> _].
    now rewrite build_url_no_args.
  - now destruct (request_remote E cmd d None last Ht Hd) as [_ ->].
Qed.

Lemma query_string_witness :
  transport_input
    (request (browser (resolved no_content) 0) "get_proxy_logs_filtered"
       (Some [("filter", VStr "a b&c=d/e"); ("errors_only", VNull);
              ("limit", VNum 50); ("offset", VUndefined)]) None)
  = Some "/api/logs?filter=a+b%26c%3Dd%2Fe&limit=50"
  /\ parse_query "filter=a+b%26c%3Dd%2Fe&limit=50"
     = [("filter", "a b&c=d/e"); ("limit", "50")]
  /\ transport_input
       (request (browser (resolved no_content) 0) "get_proxy_status" None None)
     = Some "/api/proxy/status"
  /\ transport_method
       (request (browser (resolved no_content) 0) "get_proxy_status" None None)
     = Some GET.
Proof.
  destruct (query_string (browser (resolved no_content) 0)
              "get_proxy_logs_filtered"
              {| url := "/api/logs"; method := GET |}
              [("filter", VStr "a b&c=d/e"); ("errors_only", VNull);
               ("limit", VNum 50); ("offset", VUndefined)] None
              eq_refl eq_refl (or_introl eq_refl))
    as (H1 & _ & H2 & _).
  destruct (query_string (browser (resolved no_content) 0)
              "get_proxy_status"
              {| url := "/api/proxy/status"; method := GET |}
              [] None eq_refl eq_refl (or_introl eq_refl))
    as (_ & _ & _ & _ & H3 & H4).
  split; [exact H1 | split; [exact H2 | split; [exact H3 | exact H4]]].
Defined.

(** *** Normalization of responses *)

Lemma request_responded (E : env) (cmd : string) (d : descriptor)
  (args : option object) (last : option Z) (response : Response) :
  isTauri E = false ->
  lookup COMMAND_MAPPING cmd = Some d ->
  fetch E (fst (build E d args)) (snd (build E d args)) = resolved response ->
  result (request E cmd args last)
  = fst (fst (respond cmd response (Date_now E) last))
  /\ snd (fst (request E cmd args last))
     = snd (fst (respond cmd response (Date_now E) last))
  /\ notifications (snd (request E cmd args last))
     = notifications (snd (respond cmd response (Date_now E) last)).
Proof.
  intros Ht Hd Hf. unfold request, attempt, result. rewrite Ht, Hd.
  destruct (build E d args) as [u o]. cbn [fst snd] in Hf. rewrite Hf.
  destruct (respond cmd response (Date_now E) last) as [[res last'] effects].
  destruct res; cbn [fst snd]; repeat split; try reflexivity.
  unfold notifications. cbn [List.filter is_unauthorized_event].
  rewrite filter_app. cbn. now rewrite app_nil_r.
Qed.

(** C8 (as amended).  For a response with a status from 200 to 299 the
    call returns [null] when the status is 204 or the body is empty,
    the parsed body when the body parses, and the body as raw text when
    it does not: a failure to parse is never an error of the call. *)
Theorem response_normalization (E : env) (cmd : string) (d : descriptor)
  (args : option object) (last : option Z) (response : Response) :
  isTauri E = false ->
  lookup COMMAND_MAPPING cmd = Some d ->
  fetch E (fst (build E d args)) (snd (build E d args)) = resolved response ->
  ok response = true ->
  result (request E cmd args last)
  = if (status response =? 204)%Z || (text response =? "")%string
    then resolved VNull
    else match json response with
         | Some v => resolved v
         | None => resolved (VStr (text response))
         end.
Proof.
  intros Ht Hd Hf Hok.
  destruct (request_responded E cmd d args last response Ht Hd Hf) as [-> _].
  unfold respond. rewrite Hok. cbn [negb].
  destruct (status response =? 204)%Z; [reflexivity|].
  destruct (text response =? "")%string; [reflexivity|].
  now destruct (json response).
Qed.

Lemma response_normalization_witness :
  ok plain_text = true
  /\ result (request (browser (resolved plain_text) 0) "get_data_dir_path"
               None None)
     = resolved (VStr "pong").
Proof.
  split; [reflexivity|].
  exact (response_normalization (browser (resolved plain_text) 0)
           "get_data_dir_path"
           {| url := "/api/system/data-dir"; method := GET |}
           None None plain_text eq_refl eq_refl eq_refl eq_refl).
Defined.

(** C8 (against the claim as stated).  A response with status 500 and
    an empty body makes the call fail; it does not return [null]. *)
Lemma empty_error_body_rejected :
  text server_error_empty = ""
  /\ result (request (browser (resolved server_error_empty) 0)
               "get_proxy_status" None None)
     = rejected (VStr "HTTP Error 500").
Proof. split; reflexivity. Qed.

(** *** The native path *)

(** C6 (as amended).  In the native embedding the call interface
    receives the command and the arguments as given and the call
    completes as the interface did: with its result, or, after one
    diagnostic line, with the very value the interface threw; nothing
    reaches the HTTP transport. *)
Theorem native_path (E : env) (cmd : string) (args : option object)
  (last : option Z) :
  isTauri E = true ->
  result (request E cmd args last) = invoke E cmd args
  /\ snd (fst (request E cmd args last)) = last
  /\ snd (request E cmd args last)
     = call_invoke cmd args
       :: match invoke E cmd args with
          | resolved _ => []
          | rejected error =>
              [console_error ("Tauri Invoke Error [" ++ cmd ++ "]:") error]
          end
  /\ transport_input (request E cmd args last) = None.
Proof.
  intros Ht. unfold request, result, transport_input. rewrite Ht.
  destruct (invoke E cmd args); repeat split.
Qed.

Lemma native_path_witness :
  isTauri (native (resolved (VNum 7))) = true
  /\ result (request (native (resolved (VNum 7))) "get_proxy_stats"
               (Some [("range", VStr "1h")]) None)
     = resolved (VNum 7)
  /\ result (request (native (rejected (VStr "denied"))) "list_accounts"
               None None)
     = rejected (VStr "denied").
Proof.
  split; [reflexivity | split].
  - exact (proj1 (native_path (native (resolved (VNum 7))) "get_proxy_stats"
                    (Some [("range", VStr "1h")]) None eq_refl)).
  - exact (proj1 (native_path (native (rejected (VStr "denied")))
                    "list_accounts" None None eq_refl)).
Defined.

(** C6 (against the claim as stated).  A failure of the native
    interface reaches the caller as it was thrown, not wrapped. *)
Lemma native_failure_not_wrapped :
  result (request (native (rejected (VStr "denied"))) "list_accounts"
            None None)
  <> rejected (TransportError (VStr "denied")).
Proof. cbn. discriminate. Qed.

(** *** The unauthorized notification *)

Lemma notifications_app (l1 l2 : list effect) :
  notifications (l1 ++ l2)%list = notifications l1 + notifications l2.
Proof. unfold notifications. now rewrite filter_app, length_app. Qed.

(** A call answered by 401 goes through the gate once. *)
Lemma request_unauthorized (c : call) (last : option Z) :
  fails_with 401 c = true ->
  snd (fst (request (call_env c) (call_cmd c) (call_args c) last))
  = (if (now_of c - last_fired last >? 2000)%Z then Some (now_of c) else last)
  /\ notifications (snd (request (call_env c) (call_cmd c) (call_args c) last))
     = if (now_of c - last_fired last >? 2000)%Z then 1 else 0.
Proof.
  unfold fails_with. intros H. apply andb_true_iff in H as [Ht H].
  apply negb_true_iff in Ht.
  destruct (lookup COMMAND_MAPPING (call_cmd c)) as [d|] eqn:Hd;
    [|discriminate].
  destruct (build (call_env c) d (call_args c)) as [u o] eqn:Hb.
  destruct (fetch (call_env c) u o) as [response|] eqn:Hf; [|discriminate].
  apply Z.eqb_eq in H.
  assert (Hf' : fetch (call_env c) (fst (build (call_env c) d (call_args c)))
                  (snd (build (call_env c) d (call_args c)))
                = resolved response) by now rewrite Hb.
  destruct (request_responded _ _ _ _ last _ Ht Hd Hf') as (_ & -> & ->).
  unfold respond, ok. rewrite H. cbn [Z.leb Z.eqb Z.compare Pos.compare
    Pos.compare_cont andb negb Pos.eqb].
  unfold unauthorized, now_of, last_fired.
  destruct (Date_now (call_env c) - match last with Some t => t | None => 0 end
            >? 2000)%Z;
    destruct (error_field _); split; reflexivity.
Qed.

(** After a firing at [t], calls up to 2000 ms later stay silent. *)
Lemma requests_inside_window (t : Z) (cs : list call) :
  forallb (fails_with 401) cs = true ->
  forallb (fun c => (now_of c - t <=? 2000)%Z) cs = true ->
  notifications (fst (requests cs (Some t))) = 0
  /\ snd (requests cs (Some t)) = Some t.
Proof.
  induction cs as [|c cs IH]; intros Hf Hw; [split; reflexivity|].
  cbn [forallb] in Hf, Hw.
  apply andb_true_iff in Hf as [Hc Hf]. apply andb_true_iff in Hw as [Ht Hw].
  destruct (request_unauthorized c (Some t) Hc) as [Hl Hn].
  cbn [requests].
  destruct (request (call_env c) (call_cmd c) (call_args c) (Some t))
    as [[res l] e]. cbn [fst snd] in Hl, Hn.
  cbn [last_fired] in Hl, Hn. apply Z.leb_le in Ht.
  destruct (Z.gtb_spec (now_of c - t) 2000); [lia|]. subst l.
  destruct (IH Hf Hw) as [IHn IHl].
  destruct (requests cs (Some t)) as [e' l']. cbn [fst snd] in *.
  now rewrite notifications_app, Hn, IHn.
Qed.

Lemma requests_app (cs1 cs2 : list call) (last : option Z) :
  requests (cs1 ++ cs2)%list last
  = ((fst (requests cs1 last) ++ fst (requests cs2 (snd (requests cs1 last))))%list,
     snd (requests cs2 (snd (requests cs1 last)))).
Proof.
  revert last. induction cs1 as [|c cs1 IH]; intros last.
  - cbn. now destruct (requests cs2 last).
  - cbn [app requests].
    destruct (request (call_env c) (call_cmd c) (call_args c) last)
      as [[res l] e].
    rewrite IH. destruct (requests cs1 l) as [e1 l1]. cbn [fst snd].
    now rewrite app_assoc.
Qed.

(** C4.  Calls answered by 401: a call outside the window of the
    previous firing fires the notification; however many failing calls
    come within 2000 ms of that firing, none fires again; the first call
    later than that fires the second notification.  In particular two
    failing calls 500 ms apart give one notification and two failing
    calls 2500 ms apart give two. *)
Theorem unauthorized_debounce (c1 c2 : call) (cs : list call)
  (last : option Z) :
  fails_with 401 c1 = true ->
  fails_with 401 c2 = true ->
  forallb (fails_with 401) cs = true ->
  (now_of c1 - last_fired last > 2000)%Z ->
  forallb (fun c => (now_of c - now_of c1 <=? 2000)%Z) cs = true ->
  notifications (fst (requests (c1 :: cs) last)) = 1
  /\ ((now_of c2 - now_of c1 > 2000)%Z ->
      notifications (fst (requests (c1 :: cs ++ [c2]) last)) = 2)
  /\ (now_of c2 = (now_of c1 + 500)%Z ->
      notifications (fst (requests [c1; c2] last)) = 1)
  /\ (now_of c2 = (now_of c1 + 2500)%Z ->
      notifications (fst (requests [c1; c2] last)) = 2).
Proof.
  intros H1 H2 Hcs Hout Hin.
  destruct (request_unauthorized c1 last H1) as [Hl Hn].
  destruct (Z.gtb_spec (now_of c1 - last_fired last) 2000); [|lia].
  assert (Hgen : forall cs' : list call,
             forallb (fails_with 401) cs' = true ->
             forallb (fun c => (now_of c - now_of c1 <=? 2000)%Z) cs' = true ->
             notifications (fst (requests (c1 :: cs') last)) = 1
             /\ snd (requests (c1 :: cs') last) = Some (now_of c1)).
  { intros cs' Hf Hw. cbn [requests].
    destruct (request (call_env c1) (call_cmd c1) (call_args c1) last)
      as [[res l1] e1]. cbn [fst snd] in Hl, Hn. subst l1.
    destruct (requests_inside_window (now_of c1) cs' Hf Hw) as [Hq Hs].
    destruct (requests cs' (Some (now_of c1))) as [e' l']. cbn [fst snd] in *.
    now rewrite notifications_app, Hn, Hq. }
  assert (Hlate : forall cs' : list call,
             forallb (fails_with 401) cs' = true ->
             forallb (fun c => (now_of c - now_of c1 <=? 2000)%Z) cs' = true ->
             (now_of c2 - now_of c1 > 2000)%Z ->
             notifications (fst (requests (c1 :: cs' ++ [c2]) last)) = 2).
  { intros cs' Hf Hw Hgt.
    change (c1 :: cs' ++ [c2])%list with ((c1 :: cs') ++ [c2])%list.
    rewrite requests_app. cbn [fst].
    destruct (Hgen cs' Hf Hw) as [Hq Hs]. rewrite notifications_app, Hq, Hs.
    destruct (request_unauthorized c2 (Some (now_of c1)) H2) as [_ Hn2].
    cbn [requests].
    destruct (request (call_env c2) (call_cmd c2) (call_args c2)
                (Some (now_of c1))) as [[res2 l2] e2].
    cbn [fst snd last_fired] in *. rewrite app_nil_r, Hn2.
    destruct (Z.gtb_spec (now_of c2 - now_of c1) 2000); [reflexivity | lia]. }
  split; [exact (proj1 (Hgen cs Hcs Hin))|].
  split; [exact (Hlate cs Hcs Hin)|].
  split.
  - intros Heq. apply (Hgen [c2]).
    + cbn. now rewrite H2.
    + cbn. rewrite andb_true_r. apply Z.leb_le. lia.
  - intros Heq. apply (Hlate [] eq_refl eq_refl). lia.
Qed.

Lemma unauthorized_debounce_witness :
  notifications
    (fst (requests [failing_call 1700000000000; failing_call 1700000000500]
            None)) = 1
  /\ notifications
       (fst (requests [failing_call 1700000000000; failing_call 1700000002500]
               None)) = 2
  /\ notifications
       (fst (requests [failing_call 1700000000000; failing_call 1700000000500;
                       failing_call 1700000001900; failing_call 1700000002000;
                       failing_call 1700000002001] None)) = 2.
Proof.
  split; [|split].
  - exact (proj1 (proj2 (proj2
             (unauthorized_debounce (failing_call 1700000000000)
                (failing_call 1700000000500) [] None
                eq_refl eq_refl eq_refl eq_refl eq_refl))) eq_refl).
  - exact (proj2 (proj2 (proj2
             (unauthorized_debounce (failing_call 1700000000000)
                (failing_call 1700000002500) [] None
                eq_refl eq_refl eq_refl eq_refl eq_refl))) eq_refl).
  - exact (proj1 (proj2
             (unauthorized_debounce (failing_call 1700000000000)
                (failing_call 1700000002001)
                [failing_call 1700000000500; failing_call 1700000001900;
                 failing_call 1700000002000] None
                eq_refl eq_refl eq_refl eq_refl eq_refl)) eq_refl).
Defined.

End RequestFacts.

(** ** The log buffer and the subscription *)

Module ConsoleFacts.
Import JS DebugConsole ConsoleReading.

(** Unfold an action down to the world it leaves. *)
Ltac run_action :=
  unfold exec, enable, disable, checkEnabled, loadLogs, clearLogs,
    startListening, stopListening, try_catch, bind, invoke, listen, unlisten,
    set, emit, get_state, ret;
  cbn [fst snd apply_patch store logs unlistenFn isEnabled listeners
         next_handle trace].

Ltac by_cases_on_subscription w :=
  let E := fresh "E" in
  destruct (unlistenFn (store w)) eqn:E; run_action; rewrite ?E;
  cbn [fst snd apply_patch store logs unlistenFn isEnabled listeners
         next_handle trace];
  try reflexivity.

Section SliceLast.
Context {A : Type}.
Implicit Types (l m : list A) (n : nat).

Lemma slice_last_length n l :
  List.length (slice_last n l) = Nat.min n (List.length l).
Proof. unfold slice_last. rewrite length_skipn. lia. Qed.

Lemma slice_last_all n l : List.length l <= n -> slice_last n l = l.
Proof.
  intros H. unfold slice_last.
  now replace (List.length l - n) with 0 by lia.
Qed.

Lemma slice_last_suffix n l :
  l = (firstn (List.length l - n) l ++ slice_last n l)%list.
Proof. unfold slice_last. now rewrite firstn_skipn. Qed.


End SliceLast.

Lemma sample_logs_length (n : nat) : List.length (sample_logs n) = n.
Proof. unfold sample_logs. now rewrite length_map, length_seq. Qed.


(** [addLog] keeps the last [MAX_LOGS] records of the buffer with the
    new record behind it, and touches nothing else. *)
Lemma addLog_exec (log : LogEntry) (w : world) :
  exec (addLog log) w
  = exec (set (set_logs (slice_last MAX_LOGS (logs (store w) ++ [log])))) w.
Proof.
  unfold addLog, exec, bind, get_state. cbn [fst snd].
  destruct (MAX_LOGS <? List.length (logs (store w) ++ [log]))%nat eqn:E;
    [reflexivity|].
  apply Nat.ltb_ge in E. now rewrite (slice_last_all _ _ E).
Qed.

Lemma addLog_logs (log : LogEntry) (w : world) :
  logs (store (exec (addLog log) w))
  = slice_last MAX_LOGS (logs (store w) ++ [log]).
Proof. now rewrite addLog_exec. Qed.


Lemma addLog_unlistenFn (log : LogEntry) (w : world) :
  unlistenFn (store (exec (addLog log) w)) = unlistenFn (store w).
Proof. now rewrite addLog_exec. Qed.

Lemma deliver_single (log : LogEntry) (w : world) (h : handle) :
  listeners w = [h] -> deliver log w = exec (addLog log) w.
Proof. unfold deliver. now intros ->. Qed.

(** What each action leaves in the buffer. *)
Lemma loadLogs_logs (r : outcome (list LogEntry)) (w : world) :
  logs (store (exec (loadLogs r) w))
  = match r with
    | resolved snapshot => snapshot
    | rejected _ => logs (store w)
    end.
Proof. now destruct r. Qed.

Lemma clearLogs_logs (r : outcome unit) (w : world) :
  logs (store (exec (clearLogs r) w))
  = match r with
    | resolved _ => []
    | rejected _ => logs (store w)
    end.
Proof. now destruct r. Qed.

Lemma startListening_logs (r : outcome unit) (w : world) :
  logs (store (exec (startListening r) w)) = logs (store w).
Proof.
  unfold startListening, exec, bind, get_state.
  destruct (unlistenFn (store w)); [reflexivity|]. now destruct r.
Qed.

Lemma stopListening_logs (w : world) :
  logs (store (exec stopListening w)) = logs (store w).
Proof.
  unfold stopListening, exec, bind, get_state.
  now destruct (unlistenFn (store w)).
Qed.

Lemma enable_logs (r1 : outcome unit) (r2 : outcome (list LogEntry))
  (r3 : outcome unit) (w : world) :
  logs (store (exec (enable r1 r2 r3) w))
  = match r1, r2 with
    | resolved _, resolved snapshot => snapshot
    | _, _ => logs (store w)
    end.
Proof.
  destruct r1 as [[]|e1], r2 as [l|e2], r3 as [[]|e3];
    by_cases_on_subscription w.
Qed.

Lemma disable_logs (r : outcome unit) (w : world) :
  logs (store (exec (disable r) w)) = logs (store w).
Proof. destruct r as [[]|e]; by_cases_on_subscription w. Qed.

Lemma checkEnabled_logs (r1 : outcome bool) (r2 : outcome (list LogEntry))
  (r3 : outcome unit) (w : world) :
  logs (store (exec (checkEnabled r1 r2 r3) w))
  = match r1, r2 with
    | resolved true, resolved snapshot => snapshot
    | _, _ => logs (store w)
    end.
Proof.
  destruct r1 as [[]|e1], r2 as [l|e2], r3 as [[]|e3];
    by_cases_on_subscription w.
Qed.

(** *** The capacity of the buffer *)

Lemma addLog_bounded (log : LogEntry) (w : world) :
  bounded (exec (addLog log) w).
Proof. unfold bounded. rewrite addLog_logs, slice_last_length. lia. Qed.

Lemma deliver_bounded (log : LogEntry) (w : world) :
  bounded w -> bounded (deliver log w).
Proof.
  unfold deliver. generalize (listeners w) at 1. intros hs. revert w.
  induction hs as [|h hs IH]; intros w Hw; [exact Hw|].
  cbn [fold_left]. apply IH, addLog_bounded.
Qed.

Lemma step_bounded (w : world) (a : action) :
  bounded w -> snapshot_within a = true -> bounded (step w a).
Proof.
  intros Hw Ha. unfold bounded in *.
  destruct a as [r1 r2 r3|r|r|r|log|r| |r1 r2 r3|log]; cbn [step].
  - rewrite enable_logs. destruct r1, r2; auto.
    cbn in Ha. now apply Nat.leb_le.
  - now rewrite disable_logs.
  - rewrite loadLogs_logs. destruct r; auto. cbn in Ha. now apply Nat.leb_le.
  - rewrite clearLogs_logs. destruct r; auto. cbn. lia.
  - apply addLog_bounded.
  - now rewrite startListening_logs.
  - now rewrite stopListening_logs.
  - rewrite checkEnabled_logs. destruct r1 as [[]|], r2; auto.
    cbn in Ha. now apply Nat.leb_le.
  - now apply deliver_bounded.
Qed.

Lemma run_bounded (acts : list action) (w : world) :
  bounded w -> forallb snapshot_within acts = true -> bounded (run acts w).
Proof.
  revert w. induction acts as [|a acts IH]; intros w Hw Ha; [exact Hw|].
  cbn [forallb] in Ha. apply andb_true_iff in Ha as [Ha Hacts].
  cbn [run fold_left]. apply IH; [|exact Hacts]. now apply step_bounded.
Qed.

Lemma forallb_firstn {A : Type} (f : A -> bool) (n : nat) (l : list A) :
  forallb f l = true -> forallb f (firstn n l) = true.
Proof.
  revert n. induction l as [|x l IH]; intros n H; [now destruct n|].
  destruct n as [|n]; [reflexivity|]. cbn [forallb firstn] in *.
  apply andb_true_iff in H as [Hx Hl]. now rewrite Hx, IH.
Qed.

(** C2 (as amended).  From a buffer within capacity, whatever actions
    follow, as long as every snapshot the backend hands over holds at
    most [MAX_LOGS] records, the buffer holds at most [MAX_LOGS] records
    after each of them.  And an append to a buffer that holds
    [MAX_LOGS] records or more leaves exactly [MAX_LOGS] records: the
    buffer with the new record behind it, less its oldest records. *)
Theorem buffer_bounded (acts : list action) (w : world) :
  List.length (logs (store w)) <= MAX_LOGS ->
  forallb snapshot_within acts = true ->
  (forall n : nat,
      List.length (logs (store (run (firstn n acts) w))) <= MAX_LOGS)
  /\ (forall (w' : world) (log : LogEntry),
        MAX_LOGS <= List.length (logs (store w')) ->
        List.length (logs (store (exec (addLog log) w'))) = MAX_LOGS
        /\ exists dropped : list LogEntry,
            (logs (store w') ++ [log])%list
            = (dropped ++ logs (store (exec (addLog log) w')))%list).
Proof.
  intros Hw Ha. split.
  - intros n. apply run_bounded; [exact Hw|]. now apply forallb_firstn.
  - intros w' log Hfull. rewrite addLog_logs. split.
    + rewrite slice_last_length, length_app. cbn [List.length]. lia.
    + eexists. apply slice_last_suffix.
Qed.

Lemma buffer_bounded_witness :
  List.length
    (logs (store (run [do_loadLogs (resolved (sample_logs 3));
                       do_addLog (sample_log 3);
                       do_enable (resolved tt) (resolved (sample_logs 2))
                         (resolved tt);
                       pushed (sample_log 4);
                       do_clearLogs (rejected VNull)] initial)))
  <= MAX_LOGS.
Proof.
  exact (proj1 (buffer_bounded
                  [do_loadLogs (resolved (sample_logs 3));
                   do_addLog (sample_log 3);
                   do_enable (resolved tt) (resolved (sample_logs 2))
                     (resolved tt);
                   pushed (sample_log 4);
                   do_clearLogs (rejected VNull)] initial
                  (Nat.le_0_l MAX_LOGS) eq_refl) 5).
Defined.

(** C2 (against the claim as stated).  [loadLogs] installs a snapshot
    of [MAX_LOGS + 1] records as it is. *)
Lemma snapshot_exceeds_capacity :
  (List.length
     (logs (store (run [do_loadLogs (resolved (sample_logs (S MAX_LOGS)))]
                     initial)))
   <=? MAX_LOGS)%nat = false.
Proof.
  change (run [do_loadLogs (resolved (sample_logs (S MAX_LOGS)))] initial)
    with (exec (loadLogs (resolved (sample_logs (S MAX_LOGS)))) initial).
  rewrite loadLogs_logs, sample_logs_length. apply Nat.leb_gt. lia.
Qed.

(** *** Appending to a full buffer *)




(** *** One live subscription *)

(** With a live handle in the store, [enable] opens no registration and
    keeps the handle. *)
Lemma enable_keeps_subscription (r1 : outcome unit)
  (r2 : outcome (list LogEntry)) (r3 : outcome unit) (w : world) (h : handle) :
  unlistenFn (store w) = Some h ->
  unlistenFn (store (exec (enable r1 r2 r3) w)) = Some h
  /\ listeners (exec (enable r1 r2 r3) w) = listeners w
  /\ next_handle (exec (enable r1 r2 r3) w) = next_handle w.
Proof.
  intros H.
  destruct r1 as [[]|e1], r2 as [l|e2], r3 as [[]|e3]; run_action;
    rewrite ?H;
    cbn [fst snd apply_patch store logs unlistenFn isEnabled listeners
           next_handle trace];
    rewrite ?H; repeat split; reflexivity.
Qed.

(** Without one, an [enable] that succeeds opens exactly one. *)
Lemma enable_opens_subscription (r2 : outcome (list LogEntry)) (w : world) :
  unlistenFn (store w) = None ->
  unlistenFn (store (exec (enable (resolved tt) r2 (resolved tt)) w))
  = Some (next_handle w)
  /\ listeners (exec (enable (resolved tt) r2 (resolved tt)) w)
     = (listeners w ++ [next_handle w])%list.
Proof.
  intros H. destruct r2 as [l|e2]; run_action; rewrite ?H;
    cbn [fst snd apply_patch store logs unlistenFn isEnabled listeners
           next_handle trace];
    rewrite ?H; split; reflexivity.
Qed.

(** Calls that run one after the other.  With a live handle in the
    store, [enable] opens no further registration and leaves the handle
    and the live registrations as they are (the enable command is still
    issued and the snapshot still loaded).  So after two calls of
    [enable], the second begun when the first has ended, from a store
    without a handle on a channel without registrations, the first of
    which succeeds, exactly one registration is live, and one pushed
    record is appended to the buffer once. *)
Theorem enable_twice (w : world) (r_logs : outcome (list LogEntry))
  (r1 : outcome unit) (r2 : outcome (list LogEntry)) (r3 : outcome unit)
  (log : LogEntry) :
  unlistenFn (store w) = None ->
  listeners w = [] ->
  let w1 := exec (enable (resolved tt) r_logs (resolved tt)) w in
  let w2 := exec (enable r1 r2 r3) w1 in
  (forall (w' : world) (h : handle),
      unlistenFn (store w') = Some h ->
      unlistenFn (store (exec (enable r1 r2 r3) w')) = Some h
      /\ listeners (exec (enable r1 r2 r3) w') = listeners w'
      /\ next_handle (exec (enable r1 r2 r3) w') = next_handle w')
  /\ listeners w1 = [next_handle w]
  /\ listeners w2 = [next_handle w]
  /\ unlistenFn (store w2) = Some (next_handle w)
  /\ logs (store (deliver log w2))
     = slice_last MAX_LOGS (logs (store w2) ++ [log]).
Proof.
  intros Hnone Hempty w1 w2.
  destruct (enable_opens_subscription r_logs w Hnone) as [Hu1 Hl1].
  fold w1 in Hu1, Hl1. rewrite Hempty in Hl1. cbn [app] in Hl1.
  destruct (enable_keeps_subscription r1 r2 r3 w1 _ Hu1) as (Hu2 & Hl2 & _).
  fold w2 in Hu2, Hl2. rewrite Hl1 in Hl2.
  split; [intros w' h; apply enable_keeps_subscription|].
  repeat split; try assumption.
  rewrite (deliver_single log w2 _ Hl2). apply addLog_logs.
Qed.

Lemma enable_twice_witness :
  listeners
    (exec (enable (resolved tt) (resolved (sample_logs 2)) (resolved tt))
       (exec (enable (resolved tt) (resolved (sample_logs 1)) (resolved tt))
          initial))
  = [0]
  /\ logs (store
       (deliver (sample_log 2)
          (exec (enable (resolved tt) (resolved (sample_logs 2)) (resolved tt))
             (exec (enable (resolved tt) (resolved (sample_logs 1))
                      (resolved tt)) initial))))
     = [sample_log 0; sample_log 1; sample_log 2].
Proof.
  pose proof (enable_twice initial (resolved (sample_logs 1)) (resolved tt)
                (resolved (sample_logs 2)) (resolved tt) (sample_log 2)
                eq_refl eq_refl) as H.
  cbv zeta in H. destruct H as (_ & _ & H2 & _ & H4).
  split; [exact H2 | exact H4].
Defined.

(** [enable] on a store that already listens still reloads: the buffer
    gives way to the snapshot. *)
Lemma enable_again_reloads :
  unlistenFn (store (listening [sample_log 0])) = Some 0
  /\ store (exec (enable (resolved tt) (resolved []) (resolved tt))
               (listening [sample_log 0]))
     <> store (listening [sample_log 0]).
Proof. split; [reflexivity | cbn; discriminate]. Qed.

(** *** Snapshots *)

(** C9.  After [disable] and an [enable] whose command and snapshot
    fetch succeed, the buffer is the snapshot, whatever it held
    before. *)
Theorem disable_enable_snapshot (w : world) (r_disable : outcome unit)
  (snapshot : list LogEntry) (r_listen : outcome unit) :
  logs (store (exec (enable (resolved tt) (resolved snapshot) r_listen)
                 (exec (disable r_disable) w)))
  = snapshot
  /\ (forall log : LogEntry,
        In log (logs (store w)) -> ~ In log snapshot ->
        ~ In log (logs (store
                    (exec (enable (resolved tt) (resolved snapshot) r_listen)
                       (exec (disable r_disable) w))))).
Proof.
  assert (H : logs (store
                (exec (enable (resolved tt) (resolved snapshot) r_listen)
                   (exec (disable r_disable) w))) = snapshot)
    by now rewrite enable_logs.
  split; [exact H|]. intros log _ Hn. now rewrite H.
Qed.

(** *** Clearing *)

(** C10.  [clearLogs] issues the clear command first.  When the command
    succeeds the buffer is emptied after it; when it fails, the failure
    is logged and absorbed, and the store is left as it was. *)
Theorem clearLogs_atomic (w : world) (e : value) :
  clearLogs (resolved tt) w
  = (resolved tt,
     {| store := {| isEnabled := isEnabled (store w); logs := [];
                    unlistenFn := unlistenFn (store w) |};
        listeners := listeners w;
        next_handle := next_handle w;
        trace := ((trace w ++ [invoked "clear_debug_console_logs"])
                  ++ [did_set (set_logs [])])%list |})
  /\ clearLogs (rejected e) w
     = (resolved tt,
        {| store := store w;
           listeners := listeners w;
           next_handle := next_handle w;
           trace := ((trace w ++ [invoked "clear_debug_console_logs"])
                     ++ [console_error "Failed to clear logs:" e])%list |}).
Proof. split; reflexivity. Qed.

End ConsoleFacts.

(** ** More of the gateway *)

Module GatewayFacts.
Import JS Request Reading GatewayReading StringFacts PathFacts RequestFacts.

(** What [request] does once [build] and [fetch] are known. *)
Lemma request_sent (E : env) (cmd : string) (d : descriptor)
  (args : option object) (last : option Z) :
  isTauri E = false ->
  lookup COMMAND_MAPPING cmd = Some d ->
  exists rest : list effect,
    snd (request E cmd args last)
    = call_fetch (fst (build E d args)) (snd (build E d args)) :: rest.
Proof.
  intros Ht Hd. unfold request, attempt. rewrite Ht, Hd.
  destruct (build E d args) as [u o]. cbn [fst snd].
  destruct (match fetch E u o with
            | resolved response => respond cmd response (Date_now E) last
            | rejected error => (rejected error, last, [])
            end) as [[res last'] effects].
  destruct res; cbn [snd]; eauto.
Qed.

Lemma request_fetch_rejected (E : env) (cmd : string) (d : descriptor)
  (args : option object) (last : option Z) (error : value) :
  isTauri E = false ->
  lookup COMMAND_MAPPING cmd = Some d ->
  fetch E (fst (build E d args)) (snd (build E d args)) = rejected error ->
  request E cmd args last
  = (rejected error, last,
     [call_fetch (fst (build E d args)) (snd (build E d args));
      console_error ("Web Fetch Error [" ++ cmd ++ "]:") error]).
Proof.
  intros Ht Hd Hf. unfold request, attempt. rewrite Ht, Hd.
  destruct (build E d args) as [u o]. cbn [fst snd] in *. now rewrite Hf.
Qed.

(** The gate of one response: it stays shut, or the response is a 401
    outside the window. *)
Lemma respond_gate (cmd : string) (response : Response) (now : Z)
  (last : option Z) :
  snd (fst (respond cmd response now last))
  = (if (status response =? 401)%Z && (now - last_fired last >? 2000)%Z
     then Some now else last)
  /\ notifications (snd (respond cmd response now last))
     = if (status response =? 401)%Z && (now - last_fired last >? 2000)%Z
       then 1 else 0.
Proof.
  unfold respond, ok.
  destruct (status response =? 401)%Z eqn:E401.
  - apply Z.eqb_eq in E401. rewrite E401.
    cbn [Z.leb Z.eqb Z.compare Pos.compare Pos.compare_cont andb negb Pos.eqb].
    unfold unauthorized, last_fired.
    destruct (now - match last with Some t => t | None => 0 end >? 2000)%Z;
      destruct (error_field _); split; reflexivity.
  - cbn [andb].
    destruct (negb ((200 <=? status response) && (status response <=? 299))%Z).
    + destruct (error_field _); split; reflexivity.
    + destruct (status response =? 204)%Z; [split; reflexivity|].
      destruct (text response =? "")%string; [split; reflexivity|].
      destruct (json response); split; reflexivity.
Qed.

Lemma fetches_respond (cmd : string) (response : Response) (now : Z)
  (last : option Z) :
  fetches (snd (respond cmd response now last)) = 0.
Proof.
  unfold respond. destruct (negb (ok response)).
  - destruct (status response =? 401)%Z.
    + unfold unauthorized. destruct (_ >? _)%Z; destruct (error_field _);
        reflexivity.
    + destruct (error_field _); reflexivity.
  - destruct (status response =? 204)%Z; [reflexivity|].
    destruct (text response =? "")%string; [reflexivity|].
    destruct (json response); reflexivity.
Qed.

Lemma attempt_gate (E : env) (cmd url : string) (options : RequestInit)
  (last : option Z) :
  snd (fst (attempt E cmd url options last))
  = (if answered_401 E (snd (attempt E cmd url options last))
        && (Date_now E - last_fired last >? 2000)%Z
     then Some (Date_now E) else last)
  /\ notifications (snd (attempt E cmd url options last))
     = (if answered_401 E (snd (attempt E cmd url options last))
           && (Date_now E - last_fired last >? 2000)%Z
        then 1 else 0)
  /\ fetches (snd (attempt E cmd url options last)) = 1
  /\ answered E (snd (attempt E cmd url options last))
     = Some (fetch E url options).
Proof.
  unfold attempt, answered_401.
  destruct (fetch E url options) as [response|error] eqn:Hf.
  - destruct (respond_gate cmd response (Date_now E) last) as [Hl Hn].
    pose proof (fetches_respond cmd response (Date_now E) last) as H0.
    destruct (respond cmd response (Date_now E) last)
      as [[[v|e] last'] effects]; cbn [fst snd answered] in *; rewrite Hf;
      repeat split; try exact Hl.
    + exact Hn.
    + unfold fetches in *. cbn [List.filter is_fetch List.length].
      now rewrite H0.
    + unfold notifications in *. cbn [List.filter is_unauthorized_event].
      rewrite filter_app. cbn. now rewrite app_nil_r.
    + unfold fetches in *. cbn [List.filter is_fetch List.length].
      rewrite filter_app, length_app, H0. reflexivity.
  - cbn [fst snd answered]. rewrite Hf. repeat split.
Qed.

(** The gate of one call, whatever the call: it opens when the call's
    [fetch] was answered by 401 outside the window, and only then. *)
Lemma request_gate (E : env) (cmd : string) (args : option object)
  (last : option Z) :
  snd (fst (request E cmd args last))
  = (if answered_401 E (snd (request E cmd args last))
        && (Date_now E - last_fired last >? 2000)%Z
     then Some (Date_now E) else last)
  /\ notifications (snd (request E cmd args last))
     = (if answered_401 E (snd (request E cmd args last))
           && (Date_now E - last_fired last >? 2000)%Z
        then 1 else 0)
  /\ fetches (snd (request E cmd args last)) <= 1.
Proof.
  unfold request. destruct (isTauri E).
  - destruct (invoke E cmd args); repeat split; cbn; lia.
  - destruct (lookup COMMAND_MAPPING cmd) as [d|].
    + destruct (build E d args) as [u o].
      destruct (attempt_gate E cmd u o last) as (H1 & H2 & H3 & _).
      repeat split; [exact H1 | exact H2 | lia].
    + destruct (inherited cmd); [|repeat split; cbn; lia].
      destruct args as [[|kv a]|];
        try (repeat split; cbn; lia);
        match goal with
        | |- context [attempt E cmd ?u ?o last] =>
            destruct (attempt_gate E cmd u o last) as (H1 & H2 & H3 & _)
        end; repeat split; try exact H1; try exact H2; lia.
Qed.

Lemma lookup_None (table : list (string * descriptor)) (cmd : string) :
  lookup table cmd = None <-> ~ In cmd (map fst table).
Proof.
  induction table as [|[name d] table IH]; cbn [lookup map fst In].
  - split; [intros _ [] | reflexivity].
  - destruct (name =? cmd)%string eqn:E.
    + apply String.eqb_eq in E. split; [discriminate|].
      intros H. exfalso. apply H. now left.
    + apply String.eqb_neq in E. rewrite IH. split.
      * intros H [H1|H1]; [congruence | contradiction].
      * intros H H1. apply H. now right.
Qed.

Lemma inherited_In (cmd : string) :
  inherited cmd = true <-> In cmd inherited_names.
Proof.
  unfold inherited. rewrite existsb_exists. split.
  - intros (x & Hin & E). apply String.eqb_eq in E. now subst.
  - intros H. exists cmd. split; [exact H | apply String.eqb_refl].
Qed.

(** No entry of the table stands under an inherited name. *)
Lemma inherited_unmapped (cmd : string) :
  In cmd inherited_names -> lookup COMMAND_MAPPING cmd = None.
Proof.
  unfold inherited_names. cbn [In]. intros H.
  repeat (destruct H as [<-|H]; [vm_compute; reflexivity|]). destruct H.
Qed.

Lemma request_with_response (E : env) (cmd : string) (d : descriptor)
  (args : option object) (last : option Z) (response : Response) :
  isTauri E = false ->
  lookup COMMAND_MAPPING cmd = Some d ->
  fetch E (fst (build E d args)) (snd (build E d args)) = resolved response ->
  request E cmd args last
  = let sent := call_fetch (fst (build E d args)) (snd (build E d args)) in
    match respond cmd response (Date_now E) last with
    | (resolved v, last', effects) => (resolved v, last', sent :: effects)
    | (rejected error, last', effects) =>
        (rejected error, last',
         sent :: effects
         ++ [console_error ("Web Fetch Error [" ++ cmd ++ "]:") error])%list
    end.
Proof.
  intros Ht Hd Hf. unfold request, attempt. rewrite Ht, Hd.
  destruct (build E d args) as [u o]. cbn [fst snd] in *. rewrite Hf.
  destruct (respond cmd response (Date_now E) last) as [[[v|e] last'] effects];
    reflexivity.
Qed.

(** X1.  Which names reach the transport on the remote path.  A name
    of the table does.  A name that is neither in the table nor
    inherited from [Object.prototype] fails with the error
    [Command [cmd] not supported in Web mode.]: nothing is sent and the
    unauthorized gate is left as it was.  An inherited name passes the
    test for a mapping: with arguments that have a key the call throws
    a [TypeError] and nothing is sent or logged, and otherwise the text
    [undefined] is requested with the default method.  In the native
    embedding nothing reaches the transport. *)
Theorem transport_reached (E : env) (cmd : string) (args : option object)
  (last : option Z) :
  (isTauri E = true -> transport_input (request E cmd args last) = None)
  /\ (isTauri E = false -> In cmd (map fst COMMAND_MAPPING) ->
      transport_input (request E cmd args last) <> None)
  /\ (isTauri E = false -> ~ In cmd (map fst COMMAND_MAPPING) ->
      ~ In cmd inherited_names ->
      result (request E cmd args last)
      = rejected (VError "Error"
                    ("Command [" ++ cmd ++ "] not supported in Web mode."))
      /\ transport_input (request E cmd args last) = None
      /\ snd (fst (request E cmd args last)) = last
      /\ fetches (snd (request E cmd args last)) = 0)
  /\ (isTauri E = false -> In cmd inherited_names ->
      (args = None \/ args = Some [] ->
       transport_input (request E cmd args last) = Some "undefined"
       /\ transport_method (request E cmd args last) = Some GET)
      /\ (forall (kv : string * value) (a : object),
            args = Some (kv :: a) ->
            request E cmd args last
            = (rejected
                 (VError "TypeError"
                    "Cannot read properties of undefined (reading 'includes')"),
               last, []))).
Proof.
  split; [|split; [|split]].
  - intros Ht. unfold request. rewrite Ht. now destruct (invoke E cmd args).
  - intros Ht Hin.
    destruct (lookup COMMAND_MAPPING cmd) as [d|] eqn:Hd.
    + destruct (request_remote E cmd d args last Ht Hd) as [-> _].
      discriminate.
    + apply lookup_None in Hd. contradiction.
  - intros Ht Hn Hi. apply lookup_None in Hn.
    assert (Hi' : inherited cmd = false).
    { destruct (inherited cmd) eqn:Ei; [|reflexivity].
      apply inherited_In in Ei. contradiction. }
    unfold request, result. rewrite Ht, Hn, Hi'. repeat split.
  - intros Ht Hi. pose proof (inherited_unmapped cmd Hi) as Hd.
    apply inherited_In in Hi. unfold request. rewrite Ht, Hd, Hi. split.
    + intros [-> | ->];
        match goal with
        | |- context [attempt E cmd ?u ?o last] =>
            unfold attempt;
            destruct (match fetch E u o with
                      | resolved response =>
                          respond cmd response (Date_now E) last
                      | rejected error => (rejected error, last, [])
                      end) as [[[v|e] last'] effects]
        end; split; reflexivity.
    + intros kv a ->. reflexivity.
Qed.

Lemma transport_reached_witness :
  transport_input
    (request (browser (resolved no_content) 0) "constructor" None None)
  = Some "undefined"
  /\ transport_input
       (request (browser (resolved no_content) 0) "list_accounts" None None)
     <> None
  /\ result (request (browser (resolved no_content) 0) "no_such_command"
               None None)
     = rejected
         (VError "Error" "Command [no_such_command] not supported in Web mode.").
Proof.
  split; [|split].
  - apply (proj2 (proj2 (proj2
             (transport_reached (browser (resolved no_content) 0)
                "constructor" None None)))); [reflexivity | | now left].
    cbn. now left.
  - apply (proj1 (proj2
             (transport_reached (browser (resolved no_content) 0)
                "list_accounts" None None))); [reflexivity|].
    cbn. now left.
  - apply (proj1 (proj2 (proj2
             (transport_reached (browser (resolved no_content) 0)
                "no_such_command" None None)))); [reflexivity | |].
    + apply (proj1 (lookup_None COMMAND_MAPPING "no_such_command")).
      vm_compute. reflexivity.
    + cbn. intuition discriminate.
Defined.

(** X2.  A POST command of the remote path sends its arguments as the
    body, serialized whole, and its path without a query; without
    arguments it sends no body. *)
Theorem post_body (E : env) (cmd : string) (d : descriptor) (a : object)
  (last : option Z) :
  isTauri E = false ->
  lookup COMMAND_MAPPING cmd = Some d ->
  method d = POST ->
  transport_input (request E cmd (Some a) last)
  = Some (substitute_path (url d) (Some a))
  /\ option_map init_body (transport_options (request E cmd (Some a) last))
     = Some (Some (JSON_stringify E a))
  /\ option_map init_method (transport_options (request E cmd (Some a) last))
     = Some POST
  /\ option_map init_body (transport_options (request E cmd None last))
     = Some None.
Proof.
  intros Ht Hd Hm. unfold transport_input, transport_options.
  destruct (request_sent E cmd d (Some a) last Ht Hd) as [rest ->].
  destruct (request_sent E cmd d None last Ht Hd) as [rest' ->].
  unfold build. rewrite Hm. repeat split.
Qed.

Lemma post_body_witness :
  transport_input
    (request (browser (resolved no_content) 0) "toggle_proxy_status"
       (Some [("accountId", VStr "a/b"); ("enable", VBool true);
              ("reason", VNull)]) None)
  = Some "/api/accounts/a%2Fb/toggle-proxy".
Proof.
  exact (proj1 (post_body (browser (resolved no_content) 0)
                  "toggle_proxy_status"
                  {| url := "/api/accounts/:accountId/toggle-proxy";
                     method := POST |}
                  [("accountId", VStr "a/b"); ("enable", VBool true);
                   ("reason", VNull)] None eq_refl eq_refl eq_refl)).
Defined.

(** X3.  Every request of the remote path carries
    [Content-Type: application/json]; with a stored admin key that is
    not empty it carries the key twice, as [Authorization: Bearer key]
    and as [x-api-key: key], and otherwise under neither name. *)
Theorem authentication_headers (E : env) (cmd : string) (d : descriptor)
  (args : option object) (last : option Z) :
  isTauri E = false ->
  lookup COMMAND_MAPPING cmd = Some d ->
  exists options : RequestInit,
    transport_options (request E cmd args last) = Some options
    /\ header "Content-Type" (init_headers options) = Some "application/json"
    /\ match localStorage_getItem E "abv_admin_api_key" with
       | Some key =>
           if (key =? "")%string
           then header "Authorization" (init_headers options) = None
                /\ header "x-api-key" (init_headers options) = None
           else header "Authorization" (init_headers options)
                = Some ("Bearer " ++ key)
                /\ header "x-api-key" (init_headers options) = Some key
       | None =>
           header "Authorization" (init_headers options) = None
           /\ header "x-api-key" (init_headers options) = None
       end.
Proof.
  intros Ht Hd. unfold transport_options.
  destruct (request_sent E cmd d args last Ht Hd) as [rest ->].
  exists (snd (build E d args)). split; [reflexivity|].
  assert (Hh : init_headers (snd (build E d args))
               = headers_of (localStorage_getItem E "abv_admin_api_key")).
  { unfold build. destruct (method d), args; reflexivity. }
  rewrite Hh. unfold headers_of.
  destruct (localStorage_getItem E "abv_admin_api_key") as [key|];
    [|repeat split].
  destruct (key =? "")%string; repeat split.
Qed.

Lemma authentication_headers_witness :
  exists options : RequestInit,
    transport_options
      (request (keyed_browser "s3cret" (resolved no_content) 0)
         "list_accounts" None None) = Some options
    /\ header "Authorization" (init_headers options) = Some "Bearer s3cret"
    /\ header "x-api-key" (init_headers options) = Some "s3cret".
Proof.
  destruct (authentication_headers
              (keyed_browser "s3cret" (resolved no_content) 0)
              "list_accounts" {| url := "/api/accounts"; method := GET |}
              None None eq_refl eq_refl) as (options & H1 & _ & H2 & H3).
  exists options. auto.
Defined.

(** X4.  A response with a status outside 200 to 299 always fails the
    call, never returns: with the [error] field of the parsed body when
    the body is an object whose [error] is truthy, and with
    [HTTP Error status] when the body does not parse or is an object
    without such a field.  The failure is logged last, as
    [Web Fetch Error [cmd]:]. *)
Theorem error_response (E : env) (cmd : string) (d : descriptor)
  (args : option object) (last : option Z) (response : Response) :
  isTauri E = false ->
  lookup COMMAND_MAPPING cmd = Some d ->
  fetch E (fst (build E d args)) (snd (build E d args)) = resolved response ->
  ok response = false ->
  exists (error : value) (before : list effect),
    result (request E cmd args last) = rejected error
    /\ snd (request E cmd args last)
       = (before
          ++ [console_error ("Web Fetch Error [" ++ cmd ++ "]:") error])%list
    /\ (json response = None ->
        error = VStr ("HTTP Error " ++ Number_toString (status response)))
    /\ (forall fields : object,
          json response = Some (VObj fields) ->
          error = if truthy (get fields "error") then get fields "error"
                  else VStr ("HTTP Error "
                             ++ Number_toString (status response))).
Proof.
  intros Ht Hd Hf Hok.
  rewrite (request_with_response E cmd d args last response Ht Hd Hf).
  unfold respond. rewrite Hok. cbn [negb].
  destruct (if (status response =? 401)%Z
            then unauthorized (Date_now E) last else (last, []))
    as [last' fired].
  destruct (json response) as [v|].
  - destruct (error_field v) as [e|e] eqn:Ee.
    + eexists. exists (call_fetch (fst (build E d args))
                         (snd (build E d args)) :: fired).
      split; [reflexivity|]. split; [reflexivity|].
      split; [discriminate|]. intros fields [= ->]. cbn in Ee.
      now injection Ee as <-.
    + exists e. exists (call_fetch (fst (build E d args))
                          (snd (build E d args)) :: fired).
      split; [reflexivity|]. split; [reflexivity|].
      split; [discriminate|]. intros fields [= ->]. discriminate.
  - cbn [error_field get truthy]. eexists.
    exists (call_fetch (fst (build E d args)) (snd (build E d args)) :: fired).
    split; [reflexivity|]. split; [reflexivity|].
    split; [reflexivity | discriminate].
Qed.

Lemma error_response_witness :
  result (request (browser (resolved refused_with_message) 0)
            "list_accounts" None None)
  = rejected (VStr "Forbidden").
Proof.
  destruct (error_response (browser (resolved refused_with_message) 0)
              "list_accounts" {| url := "/api/accounts"; method := GET |}
              None None refused_with_message eq_refl eq_refl eq_refl eq_refl)
    as (error & before & H1 & _ & _ & H4).
  rewrite H1. f_equal.
  exact (H4 [("error", VStr "Forbidden")] eq_refl).
Defined.

(** X5.  Whatever the call, the unauthorized notification fires
    exactly when the call went to [fetch], [fetch] answered with status
    401, and this is more than 2000 ms after the time the gate
    remembers; the gate then remembers the time of this call, and in
    every other case it keeps what it remembered.  In the native
    embedding it never fires. *)
Theorem notification_only_on_401 (E : env) (cmd : string)
  (args : option object) (last : option Z) :
  notifications (snd (request E cmd args last))
  = (if answered_401 E (snd (request E cmd args last))
        && (Date_now E - last_fired last >? 2000)%Z
     then 1 else 0)
  /\ snd (fst (request E cmd args last))
     = (if answered_401 E (snd (request E cmd args last))
           && (Date_now E - last_fired last >? 2000)%Z
        then Some (Date_now E) else last)
  /\ (isTauri E = true -> notifications (snd (request E cmd args last)) = 0).
Proof.
  destruct (request_gate E cmd args last) as (H1 & H2 & _).
  split; [exact H2 | split; [exact H1|]].
  intros Ht. unfold request. rewrite Ht. now destruct (invoke E cmd args).
Qed.

(** After a firing remembered as [last], calls up to time [hi] fire at
    most once per 2000 ms of the time left. *)
Lemma notifications_after (cs : list call) :
  forall (last : option Z) (hi : Z),
    (forall c : call, In c cs -> (now_of c <= hi)%Z) ->
    (last_fired last <= hi)%Z ->
    (2000 * Z.of_nat (notifications (fst (requests cs last)))
     <= hi - last_fired last)%Z.
Proof.
  induction cs as [|c cs IH]; intros last hi Hhi Hlast; [cbn; lia|].
  destruct (request_gate (call_env c) (call_cmd c) (call_args c) last)
    as (Hl & Hn & _).
  cbn [requests].
  destruct (request (call_env c) (call_cmd c) (call_args c) last)
    as [[res last1] effects]. cbn [fst snd] in Hl, Hn.
  assert (Hcs : forall c' : call, In c' cs -> (now_of c' <= hi)%Z)
    by (intros c' Hin; apply Hhi; now right).
  assert (Hc : (now_of c <= hi)%Z) by (apply Hhi; now left).
  destruct (answered_401 _ _ && _) eqn:Hfire.
  - apply andb_true_iff in Hfire as [_ Hgt].
    destruct (Z.gtb_spec (Date_now (call_env c) - last_fired last) 2000);
      [|discriminate].
    subst last1. specialize (IH (Some (Date_now (call_env c))) hi Hcs Hc).
    destruct (requests cs (Some (Date_now (call_env c)))) as [effects' last2].
    cbn [fst snd last_fired] in *. rewrite notifications_app, Hn.
    unfold now_of in *. lia.
  - subst last1. specialize (IH last hi Hcs Hlast).
    destruct (requests cs last) as [effects' last2]. cbn [fst snd] in *.
    rewrite notifications_app, Hn. cbn [Nat.add]. exact IH.
Qed.

(** X6.  Over any calls whatever, made at times between [lo] and [hi],
    the unauthorized notification fires at most once per 2000 ms of the
    span, and once more. *)
Theorem notification_rate (cs : list call) (last : option Z) (lo hi : Z) :
  (lo <= hi)%Z ->
  (forall c : call, In c cs -> (lo <= now_of c <= hi)%Z) ->
  (2000 * Z.of_nat (notifications (fst (requests cs last)))
   <= hi - lo + 2000)%Z.
Proof.
  intros Hspan. revert last. induction cs as [|c cs IH]; intros last Hin;
    [cbn; lia|].
  destruct (request_gate (call_env c) (call_cmd c) (call_args c) last)
    as (Hl & Hn & _).
  cbn [requests].
  destruct (request (call_env c) (call_cmd c) (call_args c) last)
    as [[res last1] effects] eqn:Hr. cbn [fst snd] in Hl, Hn.
  assert (Hcs : forall c' : call, In c' cs -> (lo <= now_of c' <= hi)%Z)
    by (intros c' H; apply Hin; now right).
  assert (Hc : (lo <= now_of c <= hi)%Z) by (apply Hin; now left).
  destruct (answered_401 _ _ && _) eqn:Hfire.
  - subst last1.
    pose proof (notifications_after cs (Some (Date_now (call_env c))) hi
                  (fun c' H => proj2 (Hcs c' H)) (proj2 Hc)) as Hafter.
    destruct (requests cs (Some (Date_now (call_env c)))) as [effects' last2].
    cbn [fst snd last_fired] in *. rewrite notifications_app, Hn.
    unfold now_of in *. lia.
  - subst last1. specialize (IH last Hcs).
    destruct (requests cs last) as [effects' last2]. cbn [fst snd] in *.
    rewrite notifications_app, Hn. cbn [Nat.add]. exact IH.
Qed.

Lemma notification_rate_witness :
  Z.le
    (2000
     * Z.of_nat
         (notifications
            (fst (requests
                    [failing_call 1700000000000;
                     failing_call 1700000000500;
                     a_call (browser (resolved no_content) 1700000001000)
                       "get_proxy_status" None;
                     failing_call 1700000002001;
                     failing_call 1700000002500]
                    (Some 1699999999000%Z)))))
    (1700000002500 - 1700000000000 + 2000).
Proof.
  apply notification_rate; [lia|].
  intros c [<-|[<-|[<-|[<-|[<-|[]]]]]]; cbn; lia.
Defined.

(** X7.  For a command of the table and arguments whose keys fit its
    template, the path sent has the segments of the template, each
    filled or left as written: a value never adds a segment to the
    path, whatever slashes and colons it holds. *)
Theorem path_segments_kept (cmd : string) (d : descriptor) (a : object) :
  lookup COMMAND_MAPPING cmd = Some d ->
  forallb (key_fits (url d)) (Object_keys a) = true ->
  segments (substitute_path (url d) (Some a))
  = map (fill a) (segments (url d))
  /\ List.length (segments (substitute_path (url d) (Some a)))
     = List.length (segments (url d)).
Proof.
  intros Hd Hfit.
  assert (H : segments (substitute_path (url d) (Some a))
              = map (fill a) (segments (url d))).
  { rewrite substitute_path_expected;
      [|now apply lookup_template_ok with (cmd := cmd) | exact Hfit].
    unfold expected_path, segments.
    pose proof (split_pieces "/" (url d)) as Hpieces.
    destruct (split "/" (url d)) as [|seg segs] eqn:Es;
      [now destruct (split_not_nil "/" (url d))|].
    cbn [map]. apply (split_join "/").
    change (fill a seg :: map (fill a) segs) with (map (fill a) (seg :: segs)).
    apply Forall_map. revert Hpieces. apply Forall_impl. intros piece Hp.
    unfold fill, fill_from. destruct (placeholder_name piece); [|exact Hp].
    destruct (existsb _ _); [apply encodeURIComponent_no_slash | exact Hp]. }
  split; [exact H|]. now rewrite H, length_map.
Qed.

Lemma path_segments_kept_witness :
  segments
    (substitute_path "/api/accounts/:accountId/device-versions/:versionId"
       (Some [("versionId", VStr "../../x"); ("accountId", VStr "a/:b")]))
  = [""; "api"; "accounts"; "a%2F%3Ab"; "device-versions"; "..%2F..%2Fx"].
Proof.
  exact (proj1 (path_segments_kept "delete_device_version"
                  {| url := "/api/accounts/:accountId/device-versions/:versionId";
                     method := DELETE |}
                  [("versionId", VStr "../../x"); ("accountId", VStr "a/:b")]
                  eq_refl eq_refl)).
Defined.

(** X8.  A call is never tried again: whatever the command, the
    arguments and the answers, [fetch] is called at most once; a command
    of the table on the remote path calls it exactly once, and the
    native embedding never.  When [fetch] itself rejects, the call
    fails with the very value it rejected with and the unauthorized
    gate is left as it was. *)
Theorem single_attempt (E : env) (cmd : string) (args : option object)
  (last : option Z) :
  fetches (snd (request E cmd args last)) <= 1
  /\ (isTauri E = true -> fetches (snd (request E cmd args last)) = 0)
  /\ (isTauri E = false -> In cmd (map fst COMMAND_MAPPING) ->
      fetches (snd (request E cmd args last)) = 1)
  /\ (forall error : value,
        answered E (snd (request E cmd args last)) = Some (rejected error) ->
        result (request E cmd args last) = rejected error
        /\ snd (fst (request E cmd args last)) = last).
Proof.
  assert (Hrej : forall (u : string) (o : RequestInit) (error : value),
             answered E (snd (attempt E cmd u o last))
             = Some (rejected error) ->
             result (attempt E cmd u o last) = rejected error
             /\ snd (fst (attempt E cmd u o last)) = last).
  { intros u o error Ha.
    destruct (attempt_gate E cmd u o last) as (_ & _ & _ & Hans).
    rewrite Hans in Ha. injection Ha as Hf.
    unfold attempt, result. now rewrite Hf. }
  split; [|split; [|split]].
  - now destruct (request_gate E cmd args last) as (_ & _ & H).
  - intros Ht. unfold request. rewrite Ht. now destruct (invoke E cmd args).
  - intros Ht Hin. destruct (lookup COMMAND_MAPPING cmd) as [d|] eqn:Hd.
    + unfold request. rewrite Ht, Hd. destruct (build E d args) as [u o].
      now destruct (attempt_gate E cmd u o last) as (_ & _ & H & _).
    + apply lookup_None in Hd. contradiction.
  - intros error. unfold request. destruct (isTauri E).
    + destruct (invoke E cmd args); discriminate.
    + destruct (lookup COMMAND_MAPPING cmd) as [d|].
      * destruct (build E d args) as [u o]. apply Hrej.
      * destruct (inherited cmd); [|discriminate].
        destruct args as [[|kv a]|]; try discriminate; apply Hrej.
Qed.

Lemma single_attempt_witness :
  fetches
    (snd (request (browser (rejected (VStr "offline")) 0) "list_accounts"
            None None)) = 1
  /\ result (request (browser (rejected (VStr "offline")) 0) "list_accounts"
               None None)
     = rejected (VStr "offline").
Proof.
  destruct (single_attempt (browser (rejected (VStr "offline")) 0)
              "list_accounts" None None) as (_ & _ & H1 & H2).
  split.
  - apply H1; [reflexivity|]. cbn. now left.
  - exact (proj1 (H2 (VStr "offline") eq_refl)).
Defined.

End GatewayFacts.

(** ** More of the store *)

Module StoreFacts.
Import JS DebugConsole ConsoleReading StoreReading ConsoleFacts.

Ltac simpl_world :=
  cbn [fst snd apply_patch store logs unlistenFn isEnabled listeners
         next_handle trace List.filter app negb].

(** X9.  No action of the store ever throws to its caller: whatever the
    backend and the channel answer, each one completes. *)
Theorem actions_never_reject (w : world) :
  (forall r1 r2 r3, fst (enable r1 r2 r3 w) = resolved tt)
  /\ (forall r, fst (disable r w) = resolved tt)
  /\ (forall r, fst (loadLogs r w) = resolved tt)
  /\ (forall r, fst (clearLogs r w) = resolved tt)
  /\ (forall log, fst (addLog log w) = resolved tt)
  /\ (forall r, fst (startListening r w) = resolved tt)
  /\ fst (stopListening w) = resolved tt
  /\ (forall r1 r2 r3, fst (checkEnabled r1 r2 r3 w) = resolved tt).
Proof.
  repeat split.
  - intros [[]|e1] [l|e2] [[]|e3]; by_cases_on_subscription w.
  - intros [[]|e]; by_cases_on_subscription w.
  - intros [l|e]; reflexivity.
  - intros [[]|e]; reflexivity.
  - intros log. unfold addLog, bind, get_state.
    now destruct (MAX_LOGS <? _)%nat.
  - intros [[]|e]; by_cases_on_subscription w.
  - by_cases_on_subscription w.
  - intros [[|]|e1] [l|e2] [[]|e3]; by_cases_on_subscription w.
Qed.

Lemma addLog_synced (log : LogEntry) (w : world) :
  synced w -> synced (exec (addLog log) w).
Proof. unfold synced. now rewrite addLog_exec. Qed.

Lemma deliver_synced (log : LogEntry) (w : world) :
  synced w -> synced (deliver log w).
Proof.
  unfold deliver. generalize (listeners w) at 1. intros hs. revert w.
  induction hs as [|h hs IH]; intros w Hw; [exact Hw|].
  cbn [fold_left]. now apply IH, addLog_synced.
Qed.

Lemma step_synced (w : world) (a : action) : synced w -> synced (step w a).
Proof.
  intros Hw.
  destruct a as [r1 r2 r3|r|r|r|log|r| |r1 r2 r3|log]; cbn [step];
    try (now apply addLog_synced); try (now apply deliver_synced);
    unfold synced in *.
  - destruct r1 as [[]|e1], r2 as [l|e2], r3 as [[]|e3];
      destruct (unlistenFn (store w)) eqn:E; run_action; rewrite ?E;
      simpl_world; rewrite ?E, ?Hw; reflexivity.
  - destruct r as [[]|e];
      destruct (unlistenFn (store w)) eqn:E; run_action; rewrite ?E;
      simpl_world; rewrite ?E, ?Hw; simpl_world;
      rewrite ?Nat.eqb_refl; reflexivity.
  - destruct r as [l|e]; run_action; exact Hw.
  - destruct r as [[]|e]; run_action; exact Hw.
  - destruct r as [[]|e];
      destruct (unlistenFn (store w)) eqn:E; run_action; rewrite ?E;
      simpl_world; rewrite ?E, ?Hw; reflexivity.
  - destruct (unlistenFn (store w)) eqn:E; run_action; rewrite ?E;
      simpl_world; rewrite ?E, ?Hw; simpl_world;
      rewrite ?Nat.eqb_refl; reflexivity.
  - destruct r1 as [[|]|e1], r2 as [l|e2], r3 as [[]|e3];
      destruct (unlistenFn (store w)) eqn:E; run_action; rewrite ?E;
      simpl_world; rewrite ?E, ?Hw; reflexivity.
Qed.

(** X10.  Whatever actions run one after the other, with whatever
    answers, the live registrations on the channel stay the store's
    own: exactly the one whose [unlisten] function the store holds, and
    none when it holds none.  So at most one registration is live. *)
Theorem one_subscription (acts : list action) (w : world) :
  synced w ->
  synced (run acts w) /\ List.length (listeners (run acts w)) <= 1.
Proof.
  intros Hw.
  assert (H : synced (run acts w)).
  { revert w Hw. induction acts as [|a acts IH]; intros w Hw; [exact Hw|].
    cbn [run fold_left]. now apply IH, step_synced. }
  split; [exact H|]. unfold synced in H. rewrite H.
  destruct (unlistenFn (store (run acts w))); cbn; lia.
Qed.

Lemma one_subscription_witness :
  synced initial
  /\ synced
       (run [do_checkEnabled (resolved true) (resolved []) (resolved tt);
               do_enable (resolved tt) (rejected VNull) (resolved tt);
               do_startListening (resolved tt);
               do_disable (rejected VNull);
               pushed (sample_log 0);
               do_disable (resolved tt);
               do_enable (resolved tt) (resolved []) (resolved tt)] initial)
  /\ List.length
       (listeners
          (run [do_checkEnabled (resolved true) (resolved []) (resolved tt);
                  do_enable (resolved tt) (rejected VNull) (resolved tt);
                  do_startListening (resolved tt);
                  do_disable (rejected VNull);
                  pushed (sample_log 0);
                  do_disable (resolved tt);
                  do_enable (resolved tt) (resolved []) (resolved tt)] initial))
     <= 1.
Proof.
  split; [reflexivity|].
  exact (one_subscription
           [do_checkEnabled (resolved true) (resolved []) (resolved tt);
            do_enable (resolved tt) (rejected VNull) (resolved tt);
            do_startListening (resolved tt);
            do_disable (rejected VNull);
            pushed (sample_log 0);
            do_disable (resolved tt);
            do_enable (resolved tt) (resolved []) (resolved tt)]
           initial eq_refl).
Defined.

(** X11.  When the backend refuses the command an action starts with,
    the action changes nothing in the store and nothing on the channel:
    it logs the refusal and ends.  So for [enable], [disable],
    [checkEnabled] and [loadLogs]. *)
Theorem refused_command_changes_nothing (w : world) (e : value)
  (r_logs : outcome (list LogEntry)) (r_listen : outcome unit) :
  (store (exec (enable (rejected e) r_logs r_listen) w) = store w
   /\ listeners (exec (enable (rejected e) r_logs r_listen) w) = listeners w
   /\ trace (exec (enable (rejected e) r_logs r_listen) w)
      = (trace w ++ [invoked "enable_debug_console";
                     console_error "Failed to enable debug console:" e])%list)
  /\ (store (exec (disable (rejected e)) w) = store w
      /\ listeners (exec (disable (rejected e)) w) = listeners w
      /\ trace (exec (disable (rejected e)) w)
         = (trace w ++ [invoked "disable_debug_console";
                        console_error "Failed to disable debug console:" e])%list)
  /\ (store (exec (checkEnabled (rejected e) r_logs r_listen) w) = store w
      /\ listeners (exec (checkEnabled (rejected e) r_logs r_listen) w)
         = listeners w
      /\ trace (exec (checkEnabled (rejected e) r_logs r_listen) w)
         = (trace w ++ [invoked "is_debug_console_enabled";
                        console_error
                          "Failed to check debug console status:" e])%list)
  /\ (store (exec (loadLogs (rejected e)) w) = store w
      /\ listeners (exec (loadLogs (rejected e)) w) = listeners w
      /\ trace (exec (loadLogs (rejected e)) w)
         = (trace w ++ [invoked "get_debug_console_logs";
                        console_error "Failed to load logs:" e])%list).
Proof.
  repeat split; run_action; now rewrite <- ?app_assoc.
Qed.

Lemma run_pushed_unsubscribed (records : list LogEntry) (w : world) :
  listeners w = [] -> run (map pushed records) w = w.
Proof.
  intros H. induction records as [|r records IH]; [reflexivity|].
  cbn [map run fold_left step]. unfold deliver at 1. rewrite H.
  cbn [fold_left]. exact IH.
Qed.

(** X12.  A [disable] that the backend accepts releases the store's
    registration and clears the flag, and keeps the buffer; records
    pushed afterwards change nothing at all. *)
Theorem disable_releases (w : world) (h : handle)
  (records : list LogEntry) :
  unlistenFn (store w) = Some h ->
  listeners w = [h] ->
  let w' := exec (disable (resolved tt)) w in
  unlistenFn (store w') = None
  /\ listeners w' = []
  /\ isEnabled (store w') = false
  /\ logs (store w') = logs (store w)
  /\ run (map pushed records) w' = w'.
Proof.
  intros Hu Hl w'.
  assert (H : unlistenFn (store w') = None /\ listeners w' = []
              /\ isEnabled (store w') = false
              /\ logs (store w') = logs (store w)).
  { subst w'. run_action. rewrite Hu. simpl_world. rewrite Hl. simpl_world.
    rewrite Nat.eqb_refl. repeat split. }
  destruct H as (H1 & H2 & H3 & H4). repeat split; try assumption.
  now apply run_pushed_unsubscribed.
Qed.

Lemma disable_releases_witness :
  logs (store (run (map pushed [sample_log 5; sample_log 6])
                 (exec (disable (resolved tt)) (listening (sample_logs 2)))))
  = sample_logs 2.
Proof.
  destruct (disable_releases (listening (sample_logs 2)) 0
              [sample_log 5; sample_log 6] eq_refl eq_refl)
    as (_ & _ & _ & H4 & H5).
  rewrite H5. exact H4.
Defined.

(** X13.  [checkEnabled] never releases a registration.  When the
    backend answers that the console is disabled while the store
    listens, the flag is cleared but the store keeps its [unlisten]
    function and its registration, and a pushed record still enters the
    buffer. *)
Theorem checkEnabled_keeps_listening (w : world) (h : handle)
  (r_logs : outcome (list LogEntry)) (r_listen : outcome unit)
  (log : LogEntry) :
  unlistenFn (store w) = Some h ->
  listeners w = [h] ->
  let w' := exec (checkEnabled (resolved false) r_logs r_listen) w in
  isEnabled (store w') = false
  /\ unlistenFn (store w') = Some h
  /\ listeners w' = [h]
  /\ logs (store (deliver log w'))
     = slice_last MAX_LOGS (logs (store w) ++ [log])
  /\ (forall (r_enabled : outcome bool),
        listeners (exec (checkEnabled r_enabled r_logs r_listen) w) = [h]).
Proof.
  intros Hu Hl w'.
  assert (H : isEnabled (store w') = false /\ unlistenFn (store w') = Some h
              /\ listeners w' = [h] /\ logs (store w') = logs (store w)).
  { subst w'. run_action. now rewrite Hl, Hu. }
  destruct H as (H1 & H2 & H3 & H4). repeat split; try assumption.
  - rewrite (deliver_single log w' h H3), addLog_logs. now rewrite H4.
  - intros [[|]|e1]; destruct r_logs as [l|e2], r_listen as [[]|e3];
      run_action; rewrite ?Hu; simpl_world; rewrite ?Hu; exact Hl.
Qed.

Lemma checkEnabled_keeps_listening_witness :
  isEnabled
    (store (exec (checkEnabled (resolved false) (resolved []) (resolved tt))
              (listening (sample_logs 2)))) = false
  /\ logs (store
       (deliver (sample_log 2)
          (exec (checkEnabled (resolved false) (resolved []) (resolved tt))
             (listening (sample_logs 2)))))
     = slice_last MAX_LOGS
         (logs (store (listening (sample_logs 2))) ++ [sample_log 2]).
Proof.
  destruct (checkEnabled_keeps_listening (listening (sample_logs 2)) 0
              (resolved []) (resolved tt) (sample_log 2) eq_refl eq_refl)
    as (H1 & _ & _ & H4 & _).
  split; [exact H1 | exact H4].
Defined.

(** X14.  [enable] is not all or nothing.  When the command and the
    snapshot succeed and the channel refuses the registration, the flag
    is set and the snapshot loaded, but the store holds no [unlisten]
    function and nothing is live; a [startListening] that the channel
    then accepts opens the one registration. *)
Theorem enable_without_channel (w : world) (snapshot : list LogEntry)
  (e : value) :
  unlistenFn (store w) = None ->
  listeners w = [] ->
  let w' := exec (enable (resolved tt) (resolved snapshot) (rejected e)) w in
  isEnabled (store w') = true
  /\ logs (store w') = snapshot
  /\ unlistenFn (store w') = None
  /\ listeners w' = []
  /\ listeners (exec (startListening (resolved tt)) w') = [next_handle w]
  /\ unlistenFn (store (exec (startListening (resolved tt)) w'))
     = Some (next_handle w).
Proof.
  intros Hu Hl w'. subst w'. run_action. rewrite Hu. simpl_world.
  rewrite ?Hu, ?Hl. repeat split.
Qed.

Lemma enable_without_channel_witness :
  isEnabled
    (store (exec (enable (resolved tt) (resolved (sample_logs 2))
                    (rejected VNull)) initial)) = true
  /\ listeners
       (exec (enable (resolved tt) (resolved (sample_logs 2))
                (rejected VNull)) initial) = [].
Proof.
  destruct (enable_without_channel initial (sample_logs 2) VNull
              eq_refl eq_refl) as (H1 & _ & _ & H4 & _).
  split; [exact H1 | exact H4].
Defined.

End StoreFacts.

(** ** The console panel *)

Module ViewFacts.
Import JS DebugConsole ConsoleReading ConsoleView StringFacts PathFacts
  ConsoleFacts.

Lemma LogLevel_eqb_eq (a b : LogLevel) : LogLevel_eqb a b = true <-> a = b.
Proof. destruct a, b; cbn; split; congruence. Qed.

Lemma LogLevel_eqb_refl (a : LogLevel) : LogLevel_eqb a a = true.
Proof. now destruct a. Qed.

Lemma LogLevel_eqb_sym (a b : LogLevel) : LogLevel_eqb a b = LogLevel_eqb b a.
Proof. now destruct a, b. Qed.

Lemma includes_level_app (f g : list LogLevel) (l : LogLevel) :
  includes_level (f ++ g) l = includes_level f l || includes_level g l.
Proof. unfold includes_level. apply existsb_app. Qed.

Lemma includes_level_removed (f : list LogLevel) (level l : LogLevel) :
  includes_level (List.filter (fun x => negb (LogLevel_eqb x level)) f) l
  = negb (LogLevel_eqb l level) && includes_level f l.
Proof.
  unfold includes_level. induction f as [|x f IH].
  - cbn. now rewrite andb_false_r.
  - cbn [List.filter existsb]. destruct (LogLevel_eqb x level) eqn:E;
      cbn [negb existsb]; rewrite IH.
    + apply LogLevel_eqb_eq in E. subst x.
      rewrite (LogLevel_eqb_sym level l).
      now destruct (LogLevel_eqb l level).
    + destruct (LogLevel_eqb x l) eqn:E'; [|reflexivity].
      apply LogLevel_eqb_eq in E'. subst x. now rewrite E.
Qed.

Lemma toggleLevel_includes (v : view) (level l : LogLevel) :
  includes_level (filter (toggleLevel v level)) l
  = if LogLevel_eqb l level then negb (includes_level (filter v) level)
    else includes_level (filter v) l.
Proof.
  unfold toggleLevel. destruct (includes_level (filter v) level) eqn:E;
    cbn [setFilter filter].
  - rewrite includes_level_removed. now destruct (LogLevel_eqb l level).
  - rewrite includes_level_app. cbn. rewrite orb_false_r.
    rewrite (LogLevel_eqb_sym level l).
    destruct (LogLevel_eqb l level) eqn:E'; [|now rewrite orb_false_r].
    apply LogLevel_eqb_eq in E'. subst l. now rewrite E.
Qed.

(** X15.  A click on a level flips that level in the filter and no
    other: afterwards the level is selected exactly when it was not, the
    other levels are selected exactly when they were, and the rest of
    the view is as it was. *)
Theorem toggleLevel_flips (v : view) (level : LogLevel) :
  includes_level (filter (toggleLevel v level)) level
  = negb (includes_level (filter v) level)
  /\ (forall l : LogLevel,
        l <> level ->
        includes_level (filter (toggleLevel v level)) l
        = includes_level (filter v) l)
  /\ isOpen (toggleLevel v level) = isOpen v
  /\ searchTerm (toggleLevel v level) = searchTerm v
  /\ autoScroll (toggleLevel v level) = autoScroll v.
Proof.
  split; [|split].
  - now rewrite toggleLevel_includes, LogLevel_eqb_refl.
  - intros l Hl. rewrite toggleLevel_includes.
    destruct (LogLevel_eqb l level) eqn:E; [|reflexivity].
    now apply LogLevel_eqb_eq in E.
  - unfold toggleLevel.
    now destruct (includes_level (filter v) level).
Qed.

Lemma remove_absent (f : list LogLevel) (level : LogLevel) :
  includes_level f level = false ->
  List.filter (fun x => negb (LogLevel_eqb x level)) f = f.
Proof.
  unfold includes_level. induction f as [|x f IH]; [reflexivity|].
  cbn [existsb List.filter]. intros H. apply orb_false_iff in H as [Hx Hf].
  rewrite Hx. cbn [negb]. now rewrite IH.
Qed.

Lemma includes_level_In (f : list LogLevel) (level : LogLevel) :
  includes_level f level = true <-> In level f.
Proof.
  unfold includes_level. rewrite existsb_exists. split.
  - intros (x & Hin & E). apply LogLevel_eqb_eq in E. now subst.
  - intros H. exists level. split; [exact H | apply LogLevel_eqb_refl].
Qed.

(** X16.  A filter without repetitions stays without repetitions under
    a click; and two clicks on a level that was not selected give back
    the very view, the filter in its order. *)
Theorem toggleLevel_twice (v : view) (level : LogLevel) :
  (NoDup (filter v) -> NoDup (filter (toggleLevel v level)))
  /\ (includes_level (filter v) level = false ->
      toggleLevel (toggleLevel v level) level = v)
  /\ (forall l : LogLevel,
        includes_level (filter (toggleLevel (toggleLevel v level) level)) l
        = includes_level (filter v) l).
Proof.
  split; [|split].
  - intros Hnd. unfold toggleLevel.
    destruct (includes_level (filter v) level) eqn:E; cbn [setFilter filter].
    + now apply NoDup_filter.
    + apply NoDup_app; [exact Hnd | repeat constructor; auto |].
      intros x Hx [<-|[]]. apply includes_level_In in Hx. congruence.
  - intros E. unfold toggleLevel at 2. rewrite E.
    unfold toggleLevel. cbn [setFilter filter].
    rewrite includes_level_app. cbn. rewrite LogLevel_eqb_refl, orb_true_r.
    rewrite filter_app, (remove_absent _ _ E). cbn.
    rewrite LogLevel_eqb_refl. cbn. rewrite app_nil_r. now destruct v.
  - intros l. rewrite !toggleLevel_includes, LogLevel_eqb_refl.
    destruct (LogLevel_eqb l level) eqn:E; [|reflexivity].
    apply LogLevel_eqb_eq in E. subst l. apply negb_involutive.
Qed.

Lemma toggleLevel_twice_witness :
  toggleLevel (toggleLevel initial_view DEBUG) DEBUG = initial_view.
Proof.
  exact (proj1 (proj2 (toggleLevel_twice initial_view DEBUG)) eq_refl).
Defined.

Section Shown.
Variable toLowerCase : string -> string.

Lemma shown_toggled_off (v : view) (level : LogLevel) (log : LogEntry) :
  includes_level (filter v) level = true ->
  shown toLowerCase (toggleLevel v level) log
  = shown toLowerCase v log
    && negb (LogLevel_eqb (DebugConsole.level log) level).
Proof.
  intros E. unfold shown. rewrite toggleLevel_includes, E.
  assert (Hs : searchTerm (toggleLevel v level) = searchTerm v).
  { unfold toggleLevel. now rewrite E. }
  rewrite Hs.
  destruct (LogLevel_eqb (DebugConsole.level log) level) eqn:E'.
  - cbn [negb]. now rewrite andb_false_r.
  - cbn [negb]. now rewrite andb_true_r.
Qed.

End Shown.

(** X17.  What the panel lists.  With every level selected and no
    search term it lists the whole buffer, in order; with no level
    selected it lists nothing; and switching a selected level off takes
    away exactly the records of that level and keeps the others as they
    were listed. *)
Theorem filteredLogs_levels (toLowerCase : string -> string) (v : view)
  (level : LogLevel) (logs : list LogEntry) :
  includes_level (filter v) level = true ->
  filteredLogs toLowerCase (toggleLevel v level) logs
  = List.filter (fun log => negb (LogLevel_eqb (DebugConsole.level log) level))
      (filteredLogs toLowerCase v logs)
  /\ ((forall l : LogLevel, includes_level (filter v) l = true) ->
      searchTerm v = "" ->
      filteredLogs toLowerCase v logs = logs)
  /\ filteredLogs toLowerCase (setFilter [] v) logs = [].
Proof.
  intros E. split; [|split].
  - unfold filteredLogs. induction logs as [|log logs IH]; [reflexivity|].
    cbn [List.filter]. rewrite (shown_toggled_off toLowerCase v level log E).
    destruct (shown toLowerCase v log); cbn [andb List.filter].
    + destruct (LogLevel_eqb (DebugConsole.level log) level); cbn [negb];
        now rewrite IH.
    + exact IH.
  - intros Hall Hterm. unfold filteredLogs.
    induction logs as [|log logs IH]; [reflexivity|].
    cbn [List.filter]. unfold shown at 1. rewrite Hall, Hterm. cbn.
    now rewrite IH.
  - unfold filteredLogs. induction logs as [|log logs IH]; [reflexivity|].
    cbn [List.filter]. exact IH.
Qed.

Lemma filteredLogs_levels_witness :
  filteredLogs lower (toggleLevel initial_view WARN)
    [entry INFO "proxy::server" "Listening"; entry WARN "proxy::auth" "Denied";
     entry DEBUG "proxy::auth" "token ok"; entry ERROR "db" "Lost"]
  = [entry INFO "proxy::server" "Listening"; entry ERROR "db" "Lost"].
Proof.
  exact (proj1 (filteredLogs_levels lower initial_view WARN
                  [entry INFO "proxy::server" "Listening";
                   entry WARN "proxy::auth" "Denied";
                   entry DEBUG "proxy::auth" "token ok";
                   entry ERROR "db" "Lost"] eq_refl)).
Defined.

Lemma total_nonzero (stats : list (LogLevel * nat)) :
  total (List.filter (fun stat => negb (snd stat =? 0)%nat) stats)
  = total stats.
Proof.
  induction stats as [|[l n] stats IH]; [reflexivity|].
  cbn [List.filter snd]. destruct (n =? 0)%nat eqn:E; cbn [negb total fold_right snd].
  - apply Nat.eqb_eq in E. subst n. exact IH.
  - fold (total (List.filter (fun stat => negb (snd stat =? 0)%nat) stats)).
    fold (total stats). now rewrite IH.
Qed.

(** X18.  The counts in the footer add up to the number of records in
    the buffer: every record is counted under exactly one level, and
    leaving out the levels without records loses nothing. *)
Theorem level_stats_total (logs : list LogEntry) :
  total (level_stats logs) = List.length logs
  /\ (forall (level : LogLevel) (n : nat),
        In (level, n) (level_stats logs) ->
        n = level_count logs level /\ n <> 0).
Proof.
  split.
  - unfold level_stats. rewrite total_nonzero. unfold LEVELS, total.
    cbn [map fold_right snd].
    induction logs as [|log logs IH]; [reflexivity|].
    unfold level_count in *. cbn [List.filter List.length].
    destruct (DebugConsole.level log); cbn [LogLevel_eqb List.length]; lia.
  - intros level n Hin. unfold level_stats in Hin.
    apply filter_In in Hin as [Hin Hn]. cbn [snd] in Hn.
    apply in_map_iff in Hin as (l & [= <- <-] & _).
    split; [reflexivity|]. apply negb_true_iff, Nat.eqb_neq in Hn. exact Hn.
Qed.

Lemma push_front_not_nil (c : ascii) (pieces : list string) :
  push_front c pieces <> [].
Proof. destruct pieces; discriminate. Qed.

Lemma split_colons_not_nil (s : string) : split_colons s <> [].
Proof.
  destruct s as [|c [|c' s]]; cbn [split_colons].
  - discriminate.
  - apply push_front_not_nil.
  - destruct (Ascii.eqb c ":" && Ascii.eqb c' ":");
      [discriminate | apply push_front_not_nil].
Qed.

Lemma join_push_front (sep : string) (c : ascii) (pieces : list string) :
  pieces <> [] ->
  join sep (push_front c pieces) = String c (join sep pieces).
Proof.
  destruct pieces as [|piece rest]; [congruence|]. intros _.
  unfold push_front. now rewrite !join_cons.
Qed.

Lemma split_colons_step (c c' : ascii) (s : string) :
  split_colons (String c (String c' s))
  = if Ascii.eqb c ":" && Ascii.eqb c' ":"
    then EmptyString :: split_colons s
    else push_front c (split_colons (String c' s)).
Proof. reflexivity. Qed.

(** Joining undoes the splitting of a target. *)
Lemma join_split_colons (s : string) :
  join "::" (split_colons s) = s
  /\ (forall c : ascii, join "::" (split_colons (String c s)) = String c s).
Proof.
  induction s as [|c' s [IH1 IH2]].
  - split; [reflexivity|]. intros c. reflexivity.
  - split; [apply IH2|]. intros c. rewrite split_colons_step.
    destruct (Ascii.eqb c ":" && Ascii.eqb c' ":") eqn:E.
    + apply andb_true_iff in E as [Ec Ec'].
      apply Ascii.eqb_eq in Ec, Ec'. subst c c'.
      destruct (split_colons s) as [|piece rest] eqn:Es;
        [now destruct (split_colons_not_nil s)|].
      change (join "::" ("" :: piece :: rest))
        with ("::" ++ join "::" (piece :: rest)).
      rewrite IH1. reflexivity.
    + rewrite join_push_front by apply split_colons_not_nil.
      now rewrite IH2.
Qed.

Lemma join_app_tail (sep : string) (l1 l2 : list string) :
  l2 <> [] ->
  exists hidden : string, join sep (l1 ++ l2) = hidden ++ join sep l2.
Proof.
  intros H2. induction l1 as [|x l1 [hidden IH]].
  - now exists "".
  - destruct (l1 ++ l2)%list as [|y rest] eqn:E.
    { destruct l1; [cbn in E; congruence | discriminate]. }
    exists (x ++ sep ++ hidden). cbn [app]. rewrite E.
    change (join sep (x :: y :: rest)) with (x ++ sep ++ join sep (y :: rest)).
    now rewrite IH, !append_assoc.
Qed.

(** X19.  The target a row shows is always an end of the real target,
    and it is the whole target when the target has at most two parts
    between its double colons. *)
Theorem display_target_suffix (target : string) :
  (exists hidden : string, target = hidden ++ display_target target)
  /\ (List.length (split_colons target) <= 2 ->
      display_target target = target)
  /\ join "::" (split_colons target) = target.
Proof.
  destruct (join_split_colons target) as [Hjoin _].
  split; [|split; [|exact Hjoin]].
  - unfold display_target.
    pose proof (slice_last_suffix 2 (split_colons target)) as Hs.
    assert (Hne : slice_last 2 (split_colons target) <> []).
    { intros H0. apply (f_equal (@List.length string)) in H0.
      rewrite slice_last_length in H0. cbn in H0.
      pose proof (split_colons_not_nil target).
      destruct (split_colons target); [congruence | cbn in H0; lia]. }
    destruct (join_app_tail "::"
                (firstn (List.length (split_colons target) - 2)
                   (split_colons target)) _ Hne) as [hidden Hh].
    rewrite <- Hs in Hh. exists hidden. now rewrite <- Hh.
  - intros Hlen. unfold display_target.
    now rewrite (slice_last_all 2 _ Hlen).
Qed.

Lemma display_target_witness :
  display_target "antigravity::proxy::handlers::claude" = "handlers::claude"
  /\ display_target "proxy::server" = "proxy::server".
Proof.
  split; [reflexivity|].
  exact (proj1 (proj2 (display_target_suffix "proxy::server"))
           (proj1 (Nat.leb_le (List.length (split_colons "proxy::server")) 2)
              eq_refl)).
Defined.

End ViewFacts.

(** ** The navigation bar *)

Module NavbarFacts.
Import JS Navbar StringFacts.

Lemma prefix_empty (q : string) : prefix "" q = true.
Proof. now destruct q. Qed.

(** Two beginnings of one text: one is a beginning of the other. *)
Lemma prefix_comparable (s : string) :
  forall p q : string,
    prefix p s = true -> prefix q s = true ->
    prefix p q = true \/ prefix q p = true.
Proof.
  induction s as [|c s IH]; intros p q Hp Hq.
  - destruct p; [left; apply prefix_empty|]. discriminate.
  - destruct p as [|a p]; [left; apply prefix_empty|].
    destruct q as [|b q]; [right; apply prefix_empty|].
    rewrite prefix_cons in Hp, Hq.
    apply andb_true_iff in Hp as [Ha Hp]. apply andb_true_iff in Hq as [Hb Hq].
    apply Ascii.eqb_eq in Ha, Hb. subst a b.
    rewrite !prefix_cons, Ascii.eqb_refl. cbn [andb]. now apply IH.
Qed.

(** No two items are active at one location. *)
Lemma isActive_exclusive (pathname p q : string) :
  In p navItems -> In q navItems -> p <> q ->
  isActive pathname p = true -> isActive pathname q = true -> False.
Proof.
  assert (Hroot : forall x : string,
             In x navItems -> x <> "/" -> prefix x "/" = false).
  { intros x Hx Hn. unfold navItems in Hx. cbn [In] in Hx.
    repeat (destruct Hx as [<-|Hx]; [try congruence; reflexivity|]).
    destruct Hx. }
  assert (Hapart : forall x y : string,
             In x navItems -> In y navItems -> x <> "/" -> y <> "/" ->
             x <> y -> prefix x y = false).
  { intros x y Hx Hy Hnx Hny Hxy. unfold navItems in Hx, Hy.
    cbn [In] in Hx, Hy.
    repeat (destruct Hx as [<-|Hx];
            [repeat (destruct Hy as [<-|Hy];
                     [try congruence; reflexivity|]); destruct Hy|]).
    destruct Hx. }
  intros Hp Hq Hpq. unfold isActive.
  destruct (p =? "/")%string eqn:Ep; destruct (q =? "/")%string eqn:Eq.
  - apply String.eqb_eq in Ep, Eq. congruence.
  - apply String.eqb_neq in Eq. intros H1 H2.
    apply String.eqb_eq in H1. subst pathname.
    unfold startsWith in H2. now rewrite (Hroot q Hq Eq) in H2.
  - apply String.eqb_neq in Ep. intros H1 H2.
    apply String.eqb_eq in H2. subst pathname.
    unfold startsWith in H1. now rewrite (Hroot p Hp Ep) in H1.
  - apply String.eqb_neq in Ep, Eq. unfold startsWith. intros H1 H2.
    destruct (prefix_comparable pathname p q H1 H2) as [H|H].
    + now rewrite (Hapart p q Hp Hq Ep Eq Hpq) in H.
    + rewrite (Hapart q p Hq Hp Eq Ep) in H; [discriminate | congruence].
Qed.

Lemma filter_at_most_one (f : string -> bool) (l : list string) :
  NoDup l ->
  (forall x y : string,
      In x l -> In y l -> x <> y -> f x = true -> f y = true -> False) ->
  List.length (List.filter f l) <= 1.
Proof.
  induction l as [|x l IH]; intros Hnd Hex; [cbn; lia|].
  inversion Hnd as [|? ? Hx Hl]; subst. cbn [List.filter].
  assert (Hex' : forall a b : string,
             In a l -> In b l -> a <> b -> f a = true -> f b = true -> False).
  { intros a b Ha Hb. apply Hex; now right. }
  destruct (f x) eqn:Efx; [|now apply IH].
  replace (List.filter f l) with (@nil string); [cbn; lia|].
  symmetry. destruct (List.filter f l) as [|y rest] eqn:Ef; [reflexivity|].
  exfalso. assert (Hy : In y (List.filter f l)) by (rewrite Ef; now left).
  apply filter_In in Hy as [Hy Hfy].
  apply (Hex x y); [now left | now right | | exact Efx | exact Hfy].
  intros ->. contradiction.
Qed.

(** X20.  At any location at most one item of the bar is active.  At
    the path of an item that item is the active one; an item other than
    the dashboard is also active at every location that goes on from
    its path, and the dashboard at [/] only. *)
Theorem one_active_item (pathname : string) :
  List.length (List.filter (isActive pathname) navItems) <= 1
  /\ (forall path : string,
        In path navItems -> List.filter (isActive path) navItems = [path])
  /\ (forall path rest : string,
        In path navItems -> path <> "/" ->
        isActive (path ++ rest) path = true)
  /\ (isActive pathname "/" = true <-> pathname = "/").
Proof.
  split; [|split; [|split]].
  - apply filter_at_most_one.
    + unfold navItems.
      repeat (constructor; [cbn; intuition discriminate|]). constructor.
    + intros x y. apply isActive_exclusive.
  - intros path Hin. unfold navItems in Hin. cbn [In] in Hin.
    repeat (destruct Hin as [<-|Hin]; [reflexivity|]). destruct Hin.
  - intros path rest Hin Hn. unfold isActive.
    apply String.eqb_neq in Hn. rewrite Hn. apply prefix_refl_append.
  - unfold isActive. cbn. apply String.eqb_eq.
Qed.

Lemma find_code (lang : string) (l : list language) :
  ~ In lang (map code l) ->
  find (fun x => (code x =? lang)%string) l = None.
Proof.
  induction l as [|x l IH]; intros H; [reflexivity|].
  cbn [find]. destruct (code x =? lang)%string eqn:E.
  - apply String.eqb_eq in E. exfalso. apply H. now left.
  - apply IH. intros Hin. apply H. now right.
Qed.

(** X21.  The language badge shows the short name of the language of
    the configuration when it is one of the twelve listed, and [EN]
    for every other language and when none is configured; it is never
    empty. *)
Theorem badge_default (config_language : option string) :
  (forall l : language,
      In l languages -> badge (Some (code l)) = short l)
  /\ (forall lang : string,
        ~ In lang (map code languages) -> badge (Some lang) = "EN")
  /\ badge None = "EN"
  /\ badge config_language <> "".
Proof.
  split; [|split; [|split]].
  - intros l Hin. unfold languages in Hin. cbn [In] in Hin.
    repeat (destruct Hin as [<-|Hin]; [reflexivity|]). destruct Hin.
  - intros lang Hn. unfold badge. now rewrite find_code.
  - reflexivity.
  - unfold badge. destruct config_language as [lang|]; [|discriminate].
    destruct (find _ languages) as [l|]; [|discriminate].
    destruct (short l =? "")%string eqn:E; [discriminate|].
    now apply String.eqb_neq in E.
Qed.

Lemma get_put (o : object) (key : string) (v : value) (k : string) :
  get (put o key v) k = if (key =? k)%string then v else get o k.
Proof.
  induction o as [|[k' v'] o IH].
  - cbn. now destruct (key =? k)%string.
  - cbn [put]. destruct (k' =? key)%string eqn:E.
    + apply String.eqb_eq in E. subst k'. cbn [get].
      now destruct (key =? k)%string.
    + cbn [get]. destruct (k' =? k)%string eqn:E'; [|exact IH].
      apply String.eqb_eq in E'. subst k'.
      rewrite String.eqb_sym in E. now rewrite E.
Qed.

(** X22.  What the bar saves.  [toggleTheme] saves the configuration
    with its theme turned to [dark] when it was [light] and to [light]
    in every other case, and [handleLanguageChange] saves it with the
    chosen language; each leaves every other field as it was.  Two
    toggles give back every field of a configuration whose theme was
    [light] or [dark].  Without a configuration nothing is saved. *)
Theorem saved_configuration (c : object) (langCode : string) :
  (exists c' : object,
      toggleTheme (Some c) = Some c'
      /\ get c' "theme"
         = VStr (if match get c "theme" with
                    | VStr theme => (theme =? "light")%string
                    | _ => false
                    end then "dark" else "light")
      /\ (forall k : string, k <> "theme" -> get c' k = get c k))
  /\ (exists c' : object,
        handleLanguageChange (Some c) langCode = Some c'
        /\ get c' "language" = VStr langCode
        /\ (forall k : string, k <> "language" -> get c' k = get c k))
  /\ (get c "theme" = VStr "light" \/ get c "theme" = VStr "dark" ->
      exists c1 c2 : object,
        toggleTheme (Some c) = Some c1
        /\ toggleTheme (Some c1) = Some c2
        /\ forall k : string, get c2 k = get c k)
  /\ toggleTheme None = None
  /\ handleLanguageChange None langCode = None.
Proof.
  assert (Hget : forall (o : object) (k : string),
             get (put (put o "theme" (VStr (newTheme o)))
                    "language" (get o "language")) k
             = if ("theme" =? k)%string then VStr (newTheme o) else get o k).
  { intros o k. rewrite !get_put.
    destruct ("language" =? k)%string eqn:E; [|reflexivity].
    apply String.eqb_eq in E. now subst k. }
  split; [|split; [|split; [|split]]]; try reflexivity.
  - eexists. split; [reflexivity|]. split.
    + rewrite Hget. cbn. unfold newTheme.
      destruct (get c "theme"); reflexivity.
    + intros k Hk. rewrite Hget. apply String.eqb_neq in Hk.
      rewrite String.eqb_sym in Hk. now rewrite Hk.
  - eexists. split; [reflexivity|]. split.
    + rewrite !get_put. reflexivity.
    + intros k Hk. rewrite !get_put.
      apply String.eqb_neq in Hk. rewrite String.eqb_sym in Hk. rewrite Hk.
      destruct ("theme" =? k)%string eqn:E; [|reflexivity].
      apply String.eqb_eq in E. now subst k.
  - intros Hth. eexists. eexists. split; [reflexivity|].
    split; [reflexivity|]. intros k. rewrite !Hget.
    destruct ("theme" =? k)%string eqn:E; [|reflexivity].
    apply String.eqb_eq in E. subst k. unfold newTheme at 1.
    rewrite Hget. cbn. unfold newTheme.
    destruct Hth as [-> | ->]; reflexivity.
Qed.

End NavbarFacts.

(** ** Actions in flight *)

Module InFlightFacts.
Import JS DebugConsole ConsoleReading InFlight ConsoleFacts.

Ltac run_in_flight :=
  unfold exec, then_resume, enable_begin, enable_resume, startListening_begin,
    startListening_resume, listen_call, listen_settle, enable, disable,
    loadLogs, startListening, stopListening, try_catch, bind, invoke, listen,
    unlisten, set, emit, get_state, ret;
  cbn [fst snd apply_patch store logs unlistenFn isEnabled listeners
         next_handle trace].

(** The two parts of [startListening], run without anything in between,
    are [startListening]. *)
Lemma startListening_split (r : outcome unit) (w : world) :
  then_resume startListening_begin (startListening_resume r) w
  = startListening r w.
Proof.
  run_in_flight. destruct (unlistenFn (store w)); [reflexivity|].
  now destruct r.
Qed.

(** The two parts of [enable], run without anything in between, are
    [enable]. *)
Lemma enable_split (r_enable : outcome unit)
  (r_logs : outcome (list LogEntry)) (r_listen : outcome unit) (w : world) :
  then_resume (enable_begin r_enable r_logs) (enable_resume r_listen) w
  = enable r_enable r_logs r_listen w.
Proof.
  destruct r_enable as [[]|e1], r_logs as [l|e2], r_listen as [[]|e3];
    run_in_flight; destruct (unlistenFn (store w)) eqn:E; rewrite ?E;
    reflexivity.
Qed.

(** C5.  Two calls of [enable] in flight.  From a store without a
    handle on a channel without registrations, the second call begins
    while the first waits for [listen]: both read the handle before
    either has stored one, both pass the guard and call [listen].  When
    the channel has answered both, two registrations are live and the
    store holds the function of the second only; a pushed record is
    appended to the buffer twice, and a [disable] that succeeds leaves
    the first registration live. *)
Theorem enable_twice_in_flight (w : world) (s1 s2 : list LogEntry)
  (log : LogEntry) :
  unlistenFn (store w) = None ->
  listeners w = [] ->
  let w1 := exec (enable_begin (resolved tt) (resolved s1)) w in
  let w2 := exec (enable_begin (resolved tt) (resolved s2)) w1 in
  let w3 := exec (enable_resume (resolved tt)) w2 in
  let w4 := exec (enable_resume (resolved tt)) w3 in
  fst (enable_begin (resolved tt) (resolved s1) w) = resolved true
  /\ fst (enable_begin (resolved tt) (resolved s2) w1) = resolved true
  /\ listeners w4 = [next_handle w; S (next_handle w)]
  /\ unlistenFn (store w4) = Some (S (next_handle w))
  /\ logs (store (deliver log w4))
     = slice_last MAX_LOGS (slice_last MAX_LOGS (s2 ++ [log]) ++ [log])
  /\ (List.length s2 + 2 <= MAX_LOGS ->
      logs (store (deliver log w4)) = (s2 ++ [log; log])%list)
  /\ listeners (exec (disable (resolved tt)) w4) = [next_handle w].
Proof.
  intros Hu Hl w1 w2 w3 w4.
  assert (H1 : fst (enable_begin (resolved tt) (resolved s1) w) = resolved true)
    by (run_in_flight; now rewrite Hu).
  assert (Hw1 : unlistenFn (store w1) = None /\ listeners w1 = []
                /\ next_handle w1 = next_handle w).
  { subst w1. run_in_flight. rewrite Hu.
    cbn [fst snd apply_patch store logs unlistenFn isEnabled listeners
           next_handle trace].
    rewrite ?Hu, ?Hl. repeat split. }
  destruct Hw1 as (Hu1 & Hl1 & Hn1).
  assert (H2 : fst (enable_begin (resolved tt) (resolved s2) w1)
               = resolved true)
    by (run_in_flight; now rewrite Hu1).
  assert (Hw2 : unlistenFn (store w2) = None /\ listeners w2 = []
                /\ next_handle w2 = next_handle w /\ logs (store w2) = s2).
  { subst w2. run_in_flight. rewrite Hu1.
    cbn [fst snd apply_patch store logs unlistenFn isEnabled listeners
           next_handle trace].
    rewrite ?Hu1, ?Hl1, ?Hn1. repeat split. }
  destruct Hw2 as (Hu2 & Hl2 & Hn2 & Hs2).
  assert (Hw4 : listeners w4 = [next_handle w; S (next_handle w)]
                /\ unlistenFn (store w4) = Some (S (next_handle w))
                /\ logs (store w4) = s2).
  { subst w4 w3. run_in_flight. rewrite ?Hl2, ?Hn2, ?Hs2. repeat split. }
  destruct Hw4 as (Hl4 & Hu4 & Hs4).
  assert (Hd : logs (store (deliver log w4))
               = slice_last MAX_LOGS
                   (slice_last MAX_LOGS (s2 ++ [log]) ++ [log])).
  { unfold deliver. rewrite Hl4. cbn [fold_left].
    now rewrite !addLog_logs, Hs4. }
  repeat split; try assumption.
  - intros Hlen. rewrite Hd.
    rewrite (slice_last_all MAX_LOGS (s2 ++ [log]))
      by (rewrite length_app; cbn [List.length]; lia).
    rewrite <- app_assoc. apply slice_last_all.
    rewrite length_app. cbn [List.length app]. lia.
  - run_in_flight. rewrite Hu4. cbn [fst snd store listeners unlistenFn].
    rewrite Hl4. cbn [List.filter negb].
    rewrite Nat.eqb_refl. cbn [negb].
    destruct (Nat.eqb_spec (next_handle w) (S (next_handle w))) as [E|_];
      [lia | reflexivity].
Qed.

Lemma enable_twice_in_flight_witness :
  listeners
    (exec (enable_resume (resolved tt))
       (exec (enable_resume (resolved tt))
          (exec (enable_begin (resolved tt) (resolved (sample_logs 2)))
             (exec (enable_begin (resolved tt) (resolved (sample_logs 1)))
                initial))))
  = [next_handle initial; S (next_handle initial)]
  /\ logs (store
       (deliver (sample_log 2)
          (exec (enable_resume (resolved tt))
             (exec (enable_resume (resolved tt))
                (exec (enable_begin (resolved tt) (resolved (sample_logs 2)))
                   (exec (enable_begin (resolved tt)
                            (resolved (sample_logs 1))) initial))))))
     = (sample_logs 2 ++ [sample_log 2; sample_log 2])%list.
Proof.
  pose proof (enable_twice_in_flight initial (sample_logs 1) (sample_logs 2)
                (sample_log 2) eq_refl eq_refl) as H.
  cbv zeta in H. destruct H as (_ & _ & H3 & _ & _ & H6 & _).
  split; [exact H3|]. apply H6.
  rewrite sample_logs_length. apply Nat.leb_le. vm_compute. reflexivity.
Defined.

End InFlightFacts.
